(** * The restricted execution of user code in app.py

    [execute_code_safely] (src/app.py, lines 171-207) redirects the
    process-wide [sys.stdout] into a fresh [io.StringIO], runs the
    source text with [exec] against a dictionary whose only key is
    [__builtins__], relays the captured text, turns an [Exception]
    into an ["Error: ..."] string and assigns [sys.stdout] again in a
    [finally] clause.  The source runs in the interpreter of its caller:
    through an allowlisted object it can reach the host, so what the
    statements after [exec] find is part of the way a run ends.

    The development has three layers:
    - [Py]: the parts of the Python run time the function touches
      (exception classes, the stream held in [sys.stdout], [StringIO]);
    - [App]: the function itself, over an arbitrary behaviour of the
      host's [exec];
    - [MiniPy]: an interpreter for a fragment of Python, an instance of
      [exec] on which sources such as [print('hi')] or [1/0] can be run. *)

From stdpp Require Import base option list strings gmap.
From Stdlib Require Import ZArith Ascii String DecimalString.

Local Open Scope string_scope.
#[local] Set Warnings "-register-all".

(** ** Python run-time notions used by the function *)

Module Py.

(** The built-in exception classes that matter here, with the class each
    one derives from (the hierarchy of the language reference). *)
Inductive exc_class :=
| BaseException
| SystemExit
| KeyboardInterrupt
| GeneratorExit
| Exception
| ArithmeticError
| AssertionError
| ZeroDivisionError
| ImportError
| NameError
| RuntimeError
| RecursionError
| SyntaxError
| TypeError
| ValueError.

#[global] Instance exc_class_eq_dec : EqDecision exc_class.
Proof. solve_decision. Defined.

Definition exc_base (c : exc_class) : option exc_class :=
  match c with
  | BaseException => None
  | SystemExit | KeyboardInterrupt | GeneratorExit | Exception =>
      Some BaseException
  | ArithmeticError | AssertionError | ImportError | NameError
  | RuntimeError | SyntaxError | TypeError | ValueError => Some Exception
  | ZeroDivisionError => Some ArithmeticError
  | RecursionError => Some RuntimeError
  end.

(** [issubclass c d]: walk the chain of bases of [c] (it is at most three
    links long) looking for [d]. *)
Fixpoint issubclass_upto (n : nat) (c d : exc_class) : bool :=
  if decide (c = d) then true
  else match n, exc_base c with
       | S n', Some b => issubclass_upto n' b d
       | _, _ => false
       end.

Definition issubclass (c d : exc_class) : bool := issubclass_upto 3 c d.

(** An exception object for which [str(e)] gives a text: its class and
    that text.  An exception object for which [str(e)] raises is not of
    this type; see [RaisedOpaque] below. *)
Record exception := Exc { exc_type : exc_class; exc_str : string }.

Definition isinstance (e : exception) (c : exc_class) : bool :=
  issubclass (exc_type e) c.

(** [str(e)], for an exception object of the type above. *)
Definition str (e : exception) : string := exc_str e.

(** File-like objects are named by their identity.  The process holds
    the object currently bound to the attribute [stdout] of the module
    [sys] and the text written so far to every stream. *)
Definition stream := nat.

Record process := Process {
  sys_stdout : stream;
  written : gmap stream string
}.

Definition set_sys_stdout (s : stream) (p : process) : process :=
  {| sys_stdout := s; written := written p |}.

(** [io.StringIO()]: a new object, distinct from every stream of the
    process, holding the empty text. *)
Definition StringIO (p : process) : stream * process :=
  let r := fresh ({[sys_stdout p]} ∪ dom (written p)) in
  (r, {| sys_stdout := sys_stdout p; written := <[r := ""]> (written p) |}).

(** The text a stream holds: what [s.getvalue()] returns when [s] is an
    open [StringIO] whose method has not been replaced (see
    [call_getvalue] for the call of line 201). *)
Definition getvalue (s : stream) (p : process) : string :=
  default "" (written p !! s).

(** The run between [before] and [after] wrote the text [T] to standard
    output: the stream that was bound to [sys.stdout] when the run began
    holds what it held, followed by [T]. *)
Definition wrote (T : string) (before after : process) : Prop :=
  getvalue (sys_stdout before) after
  = getvalue (sys_stdout before) before +:+ T.

(** [s.write(text)] *)
Definition write (s : stream) (text : string) (p : process) : process :=
  {| sys_stdout := sys_stdout p;
     written := <[s := getvalue s p +:+ text]> (written p) |}.

(** Truth value of a [str]: only the empty string is false. *)
Definition truthy (s : string) : bool :=
  match s with EmptyString => false | String _ _ => true end.

(** A process at start-up: [sys.stdout] is the terminal, stream 0, and
    nothing has been written. *)
Definition startup : process := {| sys_stdout := 0; written := ∅ |}.

(** What [captured_output.getvalue()] of line 201 does after a run.  The
    buffer is the object bound to [sys.stdout] during the run, so a
    source that reaches the module [sys] reaches the buffer. *)
Inductive getvalue_effect :=
| ReadsBuffer                        (* open, its own method: the text *)
| GetvalueRaises (f : exception)     (* closed by the run *)
| GetvalueGives (text : string) (truth : bool).
                                     (* an attribute [getvalue] put on the
                                        object by the run: the text and
                                        the truth value of what it gives *)

(** What [sys.stdout = old_stdout] of line 207 does after a run: [sys] is
    a global of app.py, looked up when the statement runs. *)
Inductive restore_effect :=
| Rebinds                            (* [sys] is the module: stdout is set *)
| MissesSys.                         (* [sys] was rebound by the run: the
                                        attribute of another object is set *)

Record tampering := Tampering {
  on_getvalue : getvalue_effect;
  on_restore : restore_effect
}.

(** How the executed source itself ends: without fault, with an exception
    whose [str] gives a text, or with an exception of class [c] whose
    [str] raises [f]. *)
Inductive ending :=
| Normally
| Raising (e : exception)
| RaisingOpaque (c : exc_class) (f : exception).

(** How a run of [exec] ends.  [Finished], [Raised] and [RaisedOpaque]
    are the runs that leave the capture buffer and the global [sys] of
    the caller as they found them; [Tampered] are the others. *)
Inductive outcome :=
| Finished
| Raised (e : exception)
| RaisedOpaque (c : exc_class) (f : exception)
| Tampered (how : ending) (t : tampering).

Definition ending_of (o : outcome) : ending :=
  match o with
  | Finished => Normally
  | Raised e => Raising e
  | RaisedOpaque c f => RaisingOpaque c f
  | Tampered how _ => how
  end.

Definition tampering_of (o : outcome) : tampering :=
  match o with
  | Tampered _ t => t
  | Finished | Raised _ | RaisedOpaque _ _ => Tampering ReadsBuffer Rebinds
  end.

Definition untouched (o : outcome) : bool :=
  match o with
  | Tampered _ _ => false
  | Finished | Raised _ | RaisedOpaque _ _ => true
  end.

(** [s.getvalue()] as line 201 calls it: the object it gives, as its text
    and its truth value, or the exception it raises. *)
Definition call_getvalue (g : getvalue_effect) (s : stream) (p : process)
  : string * bool + exception :=
  match g with
  | ReadsBuffer => inl (getvalue s p, truthy (getvalue s p))
  | GetvalueRaises f => inr f
  | GetvalueGives text truth => inl (text, truth)
  end.

(** [sys.stdout = s] as line 207 runs it. *)
Definition assign_sys_stdout (r : restore_effect) (s : stream) (p : process)
  : process :=
  match r with
  | Rebinds => set_sys_stdout s p
  | MissesSys => p
  end.

(** A process whose terminal already shows a text. *)
Definition used_terminal : process := write 0 "OLD" startup.

End Py.

(** ** The function of app.py *)

Module App.
Import Py.

(** The callables the dictionary literal of lines 181-196 names. *)
Inductive builtin :=
| py_print | py_len | py_str | py_int | py_float | py_list | py_dict
| py_range | py_enumerate | py_zip | py_max | py_min | py_sum
| py_sorted | py_abs | py_round.

#[global] Instance builtin_eq_dec : EqDecision builtin.
Proof. solve_decision. Defined.

(** The value of the ['__builtins__'] key, lines 180-197. *)
Definition allowlist_items : list (string * builtin) :=
  [ ("print", py_print);
    ("len", py_len);
    ("str", py_str);
    ("int", py_int);
    ("float", py_float);
    ("list", py_list);
    ("dict", py_dict);
    ("range", py_range);
    ("enumerate", py_enumerate);
    ("zip", py_zip);
    ("max", py_max);
    ("min", py_min);
    ("sum", py_sum);
    ("sorted", py_sorted);
    ("abs", py_abs);
    ("round", py_round) ].

Definition allowlist : gmap string builtin := list_to_map allowlist_items.

(** [exec_globals], lines 179-198. *)
Definition exec_globals : gmap string (gmap string builtin) :=
  {[ "__builtins__" := allowlist ]}.

Definition no_output_message : string :=
  "Code executed successfully (no output)".

(** What a call of [execute_code_safely] hands to its caller: the
    returned string, or an exception that leaves the function (one whose
    [str] gives a text, or one of class [c] whose [str] raises [f]). *)
Inductive completion :=
| Returns (text : string)
| Propagates (e : exception)
| PropagatesOpaque (c : exc_class) (f : exception).

(** What the [try] block of lines 177-202 comes to. *)
Inductive attempt :=
| Gives (text : string)
| Throws (e : exception)
| ThrowsOpaque (c : exc_class) (f : exception).

(** The host's [exec(code, globals)], run in a process: the way the run
    ends, with what it did to the caller, and the process it leaves; or
    [None] when the run does not come back. *)
Definition exec_behaviour : Type :=
  string -> gmap string (gmap string builtin) -> process ->
  option (outcome * process).

(** Line 175, [sys.stdout = captured_output = io.StringIO()]: the new
    buffer and the process with [sys.stdout] bound to it. *)
Definition redirect (p : process) : stream * process :=
  let '(captured_output, p) := StringIO p in
  (captured_output, set_sys_stdout captured_output p).

Section Boundary.

Variable exec : exec_behaviour.

(** [execute_code_safely], lines 171-207. *)
Definition execute_code_safely (code : string) (p : process)
  : option (completion * process) :=
  let old_stdout := sys_stdout p in
  let '(captured_output, p) := redirect p in
  match exec code exec_globals p with
  | None => None
  | Some (o, p) =>
      let found := tampering_of o in
      (* try: lines 200-202 *)
      let tried :=
        match ending_of o with
        | Normally =>
            match call_getvalue (on_getvalue found) captured_output p with
            | inl (output, truth) =>
                Gives (if truth then output else no_output_message)
            | inr f => Throws f
            end
        | Raising e => Throws e
        | RaisingOpaque c f => ThrowsOpaque c f
        end in
      (* except Exception as e: lines 204-205; an exception that [str]
         raises in the handler leaves the function *)
      let handled :=
        match tried with
        | Gives text => Returns text
        | Throws e =>
            if isinstance e Exception then Returns ("Error: " +:+ str e)
            else Propagates e
        | ThrowsOpaque c f =>
            if issubclass c Exception then Propagates f
            else PropagatesOpaque c f
        end in
      (* finally: line 207 *)
      Some (handled, assign_sys_stdout (on_restore found) old_stdout p)
  end.

End Boundary.

(** What the call hands back for a run that ends as [o] with the text
    [captured] in the buffer. *)
Definition relay (o : outcome) (captured : string) : completion :=
  match ending_of o with
  | Normally =>
      match on_getvalue (tampering_of o) with
      | ReadsBuffer =>
          Returns (if truthy captured then captured else no_output_message)
      | GetvalueRaises f =>
          if isinstance f Exception then Returns ("Error: " +:+ str f)
          else Propagates f
      | GetvalueGives text truth =>
          Returns (if truth then text else no_output_message)
      end
  | Raising e =>
      if isinstance e Exception then Returns ("Error: " +:+ str e)
      else Propagates e
  | RaisingOpaque c f =>
      if issubclass c Exception then Propagates f else PropagatesOpaque c f
  end.

(** The effect of a run that does nothing but print: its texts, written
    in order to whatever [sys.stdout] is bound to. *)
Definition emit (texts : list string) (p : process) : process :=
  foldl (fun p text => write (sys_stdout p) text p) p texts.

(** What [getvalue] gives on a buffer these texts were written to. *)
Fixpoint concat_texts (texts : list string) : string :=
  match texts with
  | [] => ""
  | t :: rest => t +:+ concat_texts rest
  end.

(** A source is pure for a host when its run ends the same way in every
    process and touches the process only by printing. *)
Definition pure_source (exec : exec_behaviour) (code : string) : Prop :=
  exists (o : outcome) (texts : list string),
    forall p, exec code exec_globals p = Some (o, emit texts p).

(** The names section 4.1 of the specification states for the allowlist,
    category by category. *)
Definition stated_categories : list (string * list string) :=
  [ ("output emission", ["print"]);
    ("length/size queries", ["len"]);
    ("string/number/boolean construction", ["str"; "int"; "float"; "bool"]);
    ("ordered-sequence construction", ["list"; "range"; "enumerate"; "zip"]);
    ("aggregate numeric operations", ["sum"; "min"; "max"; "round"; "abs"]);
    ("sorted", ["sorted"]) ].

Definition stated_names : list string :=
  List.concat (map snd stated_categories).

End App.

(** ** An interpreter for a fragment of Python

    The fragment: module-level lines of simple statements separated by
    [;] ([pass], [import m], [raise e], [x = e], expression statements) and
    one-line [while e: ...] loops, over integers, single-quoted strings
    without escapes, [True], [False], [None], the operators [+ - * /],
    attribute access and calls.  A source outside the fragment, or a run
    that needs more than the given number of steps, gets no result from
    the model ([None]); whenever the model gives a result it is the one
    CPython 3 gives. *)

Module MiniPy.
Import Py App.

(** *** Tokens *)

Definition newline : ascii := ascii_of_nat 10.
Definition nl : string := String newline "".

Definition ascii_in (lo hi : nat) (c : ascii) : bool :=
  let n := nat_of_ascii c in (lo <=? n)%nat && (n <=? hi)%nat.

Definition is_digit (c : ascii) : bool := ascii_in 48 57 c.

Definition is_name_start (c : ascii) : bool :=
  ascii_in 65 90 c || ascii_in 97 122 c || bool_decide (c = "_"%char).

Definition is_name_char (c : ascii) : bool := is_name_start c || is_digit c.

Definition is_operator (c : ascii) : bool :=
  bool_decide (c ∈ ["+"; "-"; "*"; "/"; "("; ")"; ","; "."; "="; ";"; ":"]%char).

(** Characters a string literal of the fragment may hold: printable
    ASCII other than the quote and the backslash. *)
Definition is_literal_char (c : ascii) : bool :=
  ascii_in 32 126 c && negb (bool_decide (c = "'"%char))
                    && negb (bool_decide (c = "\"%char)).

(** The words the grammar of Python reserves, and [__debug__], which
    cannot be assigned. *)
Definition reserved : list string :=
  [ "False"; "None"; "True"; "and"; "as"; "assert"; "async"; "await";
    "break"; "class"; "continue"; "def"; "del"; "elif"; "else"; "except";
    "finally"; "for"; "from"; "global"; "if"; "import"; "in"; "is";
    "lambda"; "nonlocal"; "not"; "or"; "pass"; "raise"; "return"; "try";
    "while"; "with"; "yield"; "__debug__" ].

Inductive token :=
| TName (x : string)
| TKeyword (k : string)
| TInt (z : Z)
| TStr (s : string)
| TOp (c : ascii).

#[global] Instance token_eq_dec : EqDecision token.
Proof. solve_decision. Defined.

Definition word_token (w : string) : token :=
  if bool_decide (w ∈ reserved) then TKeyword w else TName w.

Definition digit_value (c : ascii) : Z := Z.of_nat (nat_of_ascii c) - 48.

Fixpoint decimal_value (acc : Z) (s : string) : Z :=
  match s with
  | EmptyString => acc
  | String c s' => decimal_value (10 * acc + digit_value c) s'
  end.

(** The number of digits from which on the conversion between [int] and
    [str] depends on the version of the interpreter: the model has no
    answer there. *)
Definition max_str_digits : nat := 4300.

(** A decimal literal; one with a leading zero, or with more digits than
    the limit, is left out. *)
Definition int_token (digits : string) : option token :=
  match digits with
  | String "0" (String _ _) => None
  | _ =>
      if (String.length digits <=? max_str_digits)%nat
      then Some (TInt (decimal_value 0 digits))
      else None
  end.

Definition snoc (s : string) (c : ascii) : string := s +:+ String c "".

Inductive lex_state :=
| LStart
| LWord (acc : string)
| LDigits (acc : string)
| LQuote (acc : string).

(** The token that ends when the state is left. *)
Definition flush (st : lex_state) : option (list token) :=
  match st with
  | LStart => Some []
  | LWord acc => Some [word_token acc]
  | LDigits acc => t ← int_token acc; Some [t]
  | LQuote _ => None
  end.

(** Reading [c] with no token under way. *)
Definition lex_start (c : ascii) : option (list token * lex_state) :=
  if bool_decide (c = " "%char) then Some ([], LStart)
  else if is_name_start c then Some ([], LWord (String c ""))
  else if is_digit c then Some ([], LDigits (String c ""))
  else if bool_decide (c = "'"%char) then Some ([], LQuote "")
  else if is_operator c then Some ([TOp c], LStart)
  else None.

Fixpoint lex (st : lex_state) (s : string) : option (list token) :=
  match s with
  | EmptyString => flush st
  | String c s' =>
      match st with
      | LStart =>
          '(ts, st') ← lex_start c; rest ← lex st' s'; Some (ts ++ rest)%list
      | LWord acc =>
          if is_name_char c then lex (LWord (snoc acc c)) s'
          else '(ts, st') ← lex_start c; rest ← lex st' s';
               Some (word_token acc :: ts ++ rest)%list
      | LDigits acc =>
          if is_digit c then lex (LDigits (snoc acc c)) s'
          else if is_name_start c || bool_decide (c = "."%char) then None
          else t ← int_token acc; '(ts, st') ← lex_start c;
               rest ← lex st' s'; Some (t :: ts ++ rest)%list
      | LQuote acc =>
          if bool_decide (c = "'"%char)
          then rest ← lex LStart s'; Some (TStr acc :: rest)
          else if is_literal_char c then lex (LQuote (snoc acc c)) s'
          else None
      end
  end.

(** *** Syntax *)

Inductive constant := CTrue | CFalse | CNone.

Inductive binop := Add | Sub | Mul | Div.

Inductive expr :=
| EName (x : string)
| EInt (z : Z)
| EStr (s : string)
| EConst (c : constant)
| ENeg (e : expr)
| EBin (op : binop) (l r : expr)
| EAttr (e : expr) (x : string)
| ECall (f : expr) (args : list expr).

Inductive stmt :=
| SPass
| SImport (m : string)
| SRaise (e : expr)
| SAssign (x : string) (e : expr)
| SExpr (e : expr)
| SWhile (c : expr) (body : list stmt).

(** *** Parser

    Recursive descent, every call spending one unit of [n]:
    sum ::= product (('+' | '-') product)*,
    product ::= unary (('*' | '/') unary)*,
    unary ::= '-' unary | atom trailer*,
    trailer ::= '.' NAME | '(' [sum (',' sum)*] ')'. *)

Definition is_op (c : ascii) (t : token) : bool := bool_decide (t = TOp c).

Fixpoint parse_sum (n : nat) (ts : list token) : option (expr * list token) :=
  match n with
  | O => None
  | S n => '(l, ts) ← parse_product n ts; parse_sum_rest n l ts
  end
with parse_sum_rest (n : nat) (l : expr) (ts : list token)
  : option (expr * list token) :=
  match n with
  | O => None
  | S n =>
      match ts with
      | t :: ts' =>
          if is_op "+" t
          then '(r, ts) ← parse_product n ts'; parse_sum_rest n (EBin Add l r) ts
          else if is_op "-" t
          then '(r, ts) ← parse_product n ts'; parse_sum_rest n (EBin Sub l r) ts
          else Some (l, ts)
      | [] => Some (l, ts)
      end
  end
with parse_product (n : nat) (ts : list token) : option (expr * list token) :=
  match n with
  | O => None
  | S n => '(l, ts) ← parse_unary n ts; parse_product_rest n l ts
  end
with parse_product_rest (n : nat) (l : expr) (ts : list token)
  : option (expr * list token) :=
  match n with
  | O => None
  | S n =>
      match ts with
      | t :: ts' =>
          if is_op "*" t
          then '(r, ts) ← parse_unary n ts'; parse_product_rest n (EBin Mul l r) ts
          else if is_op "/" t
          then '(r, ts) ← parse_unary n ts'; parse_product_rest n (EBin Div l r) ts
          else Some (l, ts)
      | [] => Some (l, ts)
      end
  end
with parse_unary (n : nat) (ts : list token) : option (expr * list token) :=
  match n with
  | O => None
  | S n =>
      match ts with
      | TName x :: ts' => parse_trailers n (EName x) ts'
      | TInt z :: ts' => parse_trailers n (EInt z) ts'
      | TStr s :: ts' => parse_trailers n (EStr s) ts'
      | TKeyword k :: ts' =>
          if bool_decide (k = "True") then parse_trailers n (EConst CTrue) ts'
          else if bool_decide (k = "False") then parse_trailers n (EConst CFalse) ts'
          else if bool_decide (k = "None") then parse_trailers n (EConst CNone) ts'
          else None
      | TOp c :: ts' =>
          if bool_decide (c = "-"%char)
          then '(e, ts) ← parse_unary n ts'; Some (ENeg e, ts)
          else if bool_decide (c = "("%char)
          then '(e, ts) ← parse_sum n ts';
               match ts with
               | t :: ts => if is_op ")" t then parse_trailers n e ts else None
               | [] => None
               end
          else None
      | [] => None
      end
  end
with parse_trailers (n : nat) (e : expr) (ts : list token)
  : option (expr * list token) :=
  match n with
  | O => None
  | S n =>
      match ts with
      | t :: ts' =>
          if is_op "." t
          then match ts' with
               | TName x :: ts => parse_trailers n (EAttr e x) ts
               | _ => None
               end
          else if is_op "(" t
          then match ts' with
               | t' :: ts =>
                   if is_op ")" t' then parse_trailers n (ECall e []) ts
                   else '(args, ts) ← parse_args n ts';
                        parse_trailers n (ECall e args) ts
               | [] => None
               end
          else Some (e, ts)
      | [] => Some (e, ts)
      end
  end
with parse_args (n : nat) (ts : list token) : option (list expr * list token) :=
  match n with
  | O => None
  | S n =>
      '(a, ts) ← parse_sum n ts;
      match ts with
      | t :: ts' =>
          if is_op ")" t then Some ([a], ts')
          else if is_op "," t
          then '(args, ts) ← parse_args n ts'; Some (a :: args, ts)
          else None
      | [] => None
      end
  end.

(** The calls of the parser nest at most [max_nesting] deep, well below
    what every version of the interpreter accepts: an expression nested
    deeper is left out. *)
Definition max_nesting : nat := 100.

Definition parse_expr (ts : list token) : option (expr * list token) :=
  parse_sum (Nat.min (8 * List.length ts + 8) max_nesting) ts.

(** One simple statement at the head of [ts]. *)
Definition parse_simple (ts : list token) : option (stmt * list token) :=
  match ts with
  | TKeyword k :: ts' =>
      if bool_decide (k = "pass") then Some (SPass, ts')
      else if bool_decide (k = "import")
      then match ts' with
           | TName m :: ts => Some (SImport m, ts)
           | _ => None
           end
      else if bool_decide (k = "raise")
      then '(e, ts) ← parse_expr ts'; Some (SRaise e, ts)
      else '(e, ts) ← parse_expr ts; Some (SExpr e, ts)
  | TName x :: t :: ts' =>
      if is_op "=" t
      then '(e, ts) ← parse_expr ts'; Some (SAssign x e, ts)
      else '(e, ts) ← parse_expr ts; Some (SExpr e, ts)
  | _ => '(e, ts) ← parse_expr ts; Some (SExpr e, ts)
  end.

(** Simple statements separated by [;], up to the end of the line. *)
Fixpoint parse_simples (n : nat) (ts : list token) : option (list stmt) :=
  match n with
  | O => None
  | S n =>
      '(s, ts) ← parse_simple ts;
      match ts with
      | [] => Some [s]
      | t :: ts' =>
          if is_op ";" t
          then ss ← parse_simples n ts'; Some (s :: ss)
          else None
      end
  end.

Definition parse_line (ts : list token) : option (list stmt) :=
  match ts with
  | TKeyword k :: ts' =>
      if bool_decide (k = "while")
      then '(c, ts) ← parse_expr ts';
           match ts with
           | t :: body =>
               if is_op ":" t
               then b ← parse_simples (List.length body) body; Some [SWhile c b]
               else None
           | [] => None
           end
      else parse_simples (List.length ts) ts
  | _ => parse_simples (List.length ts) ts
  end.

(** The lines of a source text. *)
Fixpoint lines_from (cur : string) (s : string) : list string :=
  match s with
  | EmptyString => [cur]
  | String c s' =>
      if bool_decide (c = newline) then cur :: lines_from "" s'
      else lines_from (snoc cur c) s'
  end.

Definition lines (s : string) : list string := lines_from "" s.

Fixpoint is_blank (s : string) : bool :=
  match s with
  | EmptyString => true
  | String c s' => bool_decide (c = " "%char) && is_blank s'
  end.

Definition is_indented (s : string) : bool :=
  match s with
  | EmptyString => false
  | String c _ => bool_decide (c = " "%char)
  end.

(** Blank lines are skipped; a statement begins in the first column. *)
Definition parse_source_line (l : string) : option (list stmt) :=
  if is_blank l then Some []
  else if is_indented l then None
  else ts ← lex LStart l; parse_line ts.

Fixpoint parse_lines (ls : list string) : option (list stmt) :=
  match ls with
  | [] => Some []
  | l :: ls' =>
      ss ← parse_source_line l; rest ← parse_lines ls'; Some (ss ++ rest)%list
  end.

Definition parse (code : string) : option (list stmt) :=
  parse_lines (lines code).

(** The identifiers a program mentions. *)
Fixpoint expr_names (e : expr) : list string :=
  match e with
  | EName x => [x]
  | EInt _ | EStr _ | EConst _ => []
  | ENeg e => expr_names e
  | EBin _ l r => expr_names l ++ expr_names r
  | EAttr e _ => expr_names e
  | ECall f args => expr_names f ++ flat_map expr_names args
  end%list.

Fixpoint stmt_names (s : stmt) : list string :=
  match s with
  | SPass => []
  | SImport m => [m]
  | SRaise e | SExpr e => expr_names e
  | SAssign x e => x :: expr_names e
  | SWhile c body => expr_names c ++ flat_map stmt_names body
  end%list.

Definition referenced (code : string) : list string :=
  match parse code with
  | Some prog => flat_map stmt_names prog
  | None => []
  end.

(** The expression a statement evaluates first, if it evaluates one. *)
Definition stmt_head (s : stmt) : option expr :=
  match s with
  | SRaise e | SAssign _ e | SExpr e | SWhile e _ => Some e
  | SPass | SImport _ => None
  end.

(** The name an expression looks up first, if it starts with one:
    evaluation goes first to the operand of a sign, to the left operand,
    to the object of an attribute and to the callee of a call. *)
Fixpoint leading_name (e : expr) : option string :=
  match e with
  | EName x => Some x
  | EInt _ | EStr _ | EConst _ => None
  | ENeg e | EAttr e _ | ECall e _ => leading_name e
  | EBin _ l _ => leading_name l
  end.

(** A name of the fragment: an ASCII letter or underscore, then ASCII
    letters, digits and underscores, and neither a reserved word nor
    [__debug__].  Python has more identifiers than these: [__debug__],
    which is a constant, and the identifiers with other letters, which
    are normalised before they are looked up. *)
Fixpoint all_name_chars (s : string) : bool :=
  match s with
  | EmptyString => true
  | String c s' => is_name_char c && all_name_chars s'
  end.

Fixpoint one_line (s : string) : bool :=
  match s with
  | EmptyString => true
  | String c s' => negb (bool_decide (c = newline)) && one_line s'
  end.

Definition is_plain_name (x : string) : bool :=
  match x with
  | EmptyString => false
  | String c s => is_name_start c && all_name_chars s
  end && negb (bool_decide (x ∈ reserved)).

(** *** Values *)

Inductive value :=
| VNone
| VBool (b : bool)
| VInt (z : Z)
| VStr (s : string)
| VBuiltin (b : builtin)            (* an object the allowlist names *)
| VDict (d : gmap string builtin)   (* the dictionary under __builtins__ *)
| VModule                           (* the module builtins *)
| VClass (c : exc_class)
| VInstance (e : exception).

(** The result of a computation: a value, a raised exception, or no
    answer from the model (steps exhausted, construct not modelled). *)
Inductive res (A : Type) :=
| Ok (a : A)
| Throw (e : exception)
| Timeout
| Unsupported.
Arguments Ok {A} a.
Arguments Throw {A} e.
Arguments Timeout {A}.
Arguments Unsupported {A}.

(** Computations run in the process and keep its state when they raise. *)
Definition M (A : Type) : Type := process -> res A * process.

Definition ret {A} (a : A) : M A := fun p => (Ok a, p).
Definition throw {A} (e : exception) : M A := fun p => (Throw e, p).
Definition timeout {A} : M A := fun p => (Timeout, p).
Definition unsupported {A} : M A := fun p => (Unsupported, p).

Definition bind {A B} (m : M A) (k : A -> M B) : M B :=
  fun p =>
    match m p with
    | (Ok a, p') => k a p'
    | (Throw e, p') => (Throw e, p')
    | (Timeout, p') => (Timeout, p')
    | (Unsupported, p') => (Unsupported, p')
    end.

Notation "'do' x <- m ; k" := (bind m (fun x => k))
  (at level 10, x name, m at level 100, k at level 200).

(** [sys.stdout.write(text)], on whatever [sys.stdout] is bound to now. *)
Definition stdout_write (text : string) : M unit :=
  fun p => (Ok tt, write (sys_stdout p) text p).

Definition class_name (c : exc_class) : string :=
  match c with
  | BaseException => "BaseException"
  | SystemExit => "SystemExit"
  | KeyboardInterrupt => "KeyboardInterrupt"
  | GeneratorExit => "GeneratorExit"
  | Exception => "Exception"
  | ArithmeticError => "ArithmeticError"
  | AssertionError => "AssertionError"
  | ZeroDivisionError => "ZeroDivisionError"
  | ImportError => "ImportError"
  | NameError => "NameError"
  | RuntimeError => "RuntimeError"
  | RecursionError => "RecursionError"
  | SyntaxError => "SyntaxError"
  | TypeError => "TypeError"
  | ValueError => "ValueError"
  end.

Definition exc_classes : list exc_class :=
  [ BaseException; SystemExit; KeyboardInterrupt; GeneratorExit; Exception;
    ArithmeticError; AssertionError; ZeroDivisionError; ImportError;
    NameError; RuntimeError; RecursionError; SyntaxError; TypeError;
    ValueError ].

Definition class_named (x : string) : option exc_class :=
  List.find (fun c => bool_decide (class_name c = x)) exc_classes.

(** Of the allowlisted objects, the built-in functions (the others are
    types). *)
Definition is_function (b : builtin) : bool :=
  match b with
  | py_print | py_len | py_max | py_min | py_sum | py_sorted | py_abs
  | py_round => true
  | py_str | py_int | py_float | py_list | py_dict | py_range
  | py_enumerate | py_zip => false
  end.

Definition type_name (v : value) : string :=
  match v with
  | VNone => "NoneType"
  | VBool _ => "bool"
  | VInt _ => "int"
  | VStr _ => "str"
  | VBuiltin b => if is_function b then "builtin_function_or_method" else "type"
  | VDict _ => "dict"
  | VModule => "module"
  | VClass _ => "type"
  | VInstance e => class_name (exc_type e)
  end.

Definition int_str (z : Z) : string := NilZero.string_of_int (Z.to_int z).

(** [str(v)], for the values whose text the model knows; not for an
    integer with more digits than the limit. *)
Definition py_str_of (v : value) : option string :=
  match v with
  | VNone => Some "None"
  | VBool true => Some "True"
  | VBool false => Some "False"
  | VInt z =>
      if (Z.abs z <? 10 ^ Z.of_nat max_str_digits)%Z then Some (int_str z)
      else None
  | VStr s => Some s
  | _ => None
  end.

Definition truth (v : value) : bool :=
  match v with
  | VNone => false
  | VBool b => b
  | VInt z => negb (z =? 0)%Z
  | VStr s => truthy s
  | VDict d => negb (bool_decide (d = ∅))
  | VBuiltin _ | VModule | VClass _ | VInstance _ => true
  end.

Fixpoint join (sep : string) (ss : list string) : string :=
  match ss with
  | [] => ""
  | [s] => s
  | s :: rest => s +:+ sep +:+ join sep rest
  end.

Definition as_int (v : value) : option Z :=
  match v with VInt z => Some z | _ => None end.

(** [max] and [min] of two or more integers. *)
Definition extremum (pick : Z -> Z -> Z) (args : list value) : M value :=
  match mapM as_int args with
  | Some (a :: b :: rest) => ret (VInt (fold_left pick (b :: rest) a))
  | _ => unsupported
  end.

Definition call_builtin (b : builtin) (args : list value) : M value :=
  match b, args with
  | py_print, _ =>
      match mapM py_str_of args with
      | Some texts => do _ <- stdout_write (join " " texts +:+ nl); ret VNone
      | None => unsupported
      end
  | py_len, [VStr s] => ret (VInt (Z.of_nat (String.length s)))
  | py_len, [VDict d] => ret (VInt (Z.of_nat (size d)))
  | py_len, [VInt _] => throw (Exc TypeError "object of type 'int' has no len()")
  | py_str, [] => ret (VStr "")
  | py_str, [v] =>
      match py_str_of v with
      | Some s => ret (VStr s)
      | None => unsupported
      end
  | py_int, [] => ret (VInt 0)
  | py_int, [VInt z] => ret (VInt z)
  | py_abs, [VInt z] => ret (VInt (Z.abs z))
  | py_max, _ => extremum Z.max args
  | py_min, _ => extremum Z.min args
  | _, _ => unsupported
  end.

(** [str] of an instance built without arguments is the empty text, but
    for [SyntaxError], which the model leaves out. *)
Definition bare_instance (c : exc_class) : option exception :=
  if bool_decide (c = SyntaxError) then None else Some (Exc c "").

(** Calling an exception class builds an instance; [str] of it is the
    text of a single argument. *)
Definition instantiate (c : exc_class) (args : list value) : M value :=
  match args with
  | [] =>
      match bare_instance c with
      | Some e => ret (VInstance e)
      | None => unsupported
      end
  | [v] =>
      match py_str_of v with
      | Some s => ret (VInstance (Exc c s))
      | None => unsupported
      end
  | _ => unsupported
  end.

Definition call (f : value) (args : list value) : M value :=
  match f with
  | VBuiltin b => call_builtin b args
  | VClass c => instantiate c args
  | _ => throw (Exc TypeError ("'" +:+ type_name f +:+ "' object is not callable"))
  end.

(** Attribute access: a built-in function has the module builtins as its
    [__self__]; the module has the exception classes and the allowlisted
    objects among its attributes. *)
Definition getattr (v : value) (x : string) : M value :=
  match v with
  | VBuiltin b =>
      if is_function b && bool_decide (x = "__self__") then ret VModule
      else unsupported
  | VModule =>
      match class_named x, allowlist !! x with
      | Some c, _ => ret (VClass c)
      | None, Some b => ret (VBuiltin b)
      | None, None => unsupported
      end
  | _ => unsupported
  end.

Definition binary (op : binop) (l r : value) : M value :=
  match op, l, r with
  | Add, VInt a, VInt b => ret (VInt (a + b))
  | Add, VStr a, VStr b => ret (VStr (a +:+ b))
  | Add, VInt _, VStr _ =>
      throw (Exc TypeError "unsupported operand type(s) for +: 'int' and 'str'")
  | Sub, VInt a, VInt b => ret (VInt (a - b))
  | Mul, VInt a, VInt b => ret (VInt (a * b))
  | Div, VInt a, VInt b =>
      if (b =? 0)%Z then throw (Exc ZeroDivisionError "division by zero")
      else unsupported
  | _, _, _ => unsupported
  end.

Definition constant_value (c : constant) : value :=
  match c with
  | CTrue => VBool true
  | CFalse => VBool false
  | CNone => VNone
  end.

(** *** Evaluation *)

Section Frame.

(** The built-ins of the frame, fixed when [exec] starts. *)
Variable frame_builtins : gmap string builtin.

(** A name is looked up in the globals, then in the built-ins. *)
Definition load_name (g : gmap string value) (x : string) : M value :=
  match g !! x with
  | Some v => ret v
  | None =>
      match frame_builtins !! x with
      | Some b => ret (VBuiltin b)
      | None => throw (Exc NameError ("name '" +:+ x +:+ "' is not defined"))
      end
  end.

Fixpoint eval (g : gmap string value) (e : expr) : M value :=
  match e with
  | EName x => load_name g x
  | EInt z => ret (VInt z)
  | EStr s => ret (VStr s)
  | EConst c => ret (constant_value c)
  | ENeg e =>
      do v <- eval g e;
      match v with
      | VInt z => ret (VInt (- z))
      | _ => unsupported
      end
  | EBin op l r =>
      do a <- eval g l; do b <- eval g r; binary op a b
  | EAttr e x =>
      do v <- eval g e; getattr v x
  | ECall f args =>
      do vf <- eval g f;
      do vs <- (fix eval_args (l : list expr) : M (list value) :=
                  match l with
                  | [] => ret []
                  | a :: l' =>
                      do v <- eval g a; do vs <- eval_args l'; ret (v :: vs)
                  end) args;
      call vf vs
  end.

Definition raise_value (v : value) : M unit :=
  match v with
  | VInstance e => throw e
  | VClass c =>
      match bare_instance c with
      | Some e => throw e
      | None => unsupported
      end
  | _ => throw (Exc TypeError "exceptions must derive from BaseException")
  end.

(** [import m]: the statement calls the [__import__] of the built-ins. *)
Definition import_name (m : string) : M unit :=
  match frame_builtins !! "__import__" with
  | None => throw (Exc ImportError "__import__ not found")
  | Some _ => unsupported
  end.

(** Run the statements in order, one step of [n] each; a loop whose test
    holds puts its body and itself back in front. *)
Fixpoint run (n : nat) (ss : list stmt) (g : gmap string value) : M unit :=
  match ss with
  | [] => ret tt
  | s :: rest =>
      match n with
      | O => timeout
      | S n =>
          match s with
          | SPass => run n rest g
          | SImport m => do _ <- import_name m; run n rest g
          | SRaise e => do v <- eval g e; do _ <- raise_value v; run n rest g
          | SAssign x e => do v <- eval g e; run n rest (<[x := v]> g)
          | SExpr e => do _ <- eval g e; run n rest g
          | SWhile c body =>
              do v <- eval g c;
              if truth v then run n (body ++ s :: rest)%list g
              else run n rest g
          end
      end
  end.

End Frame.

(** A computation is uniform when it ends the same way in every process
    and touches the process only by printing. *)
Definition uniform {A} (m : M A) : Prop :=
  exists (r : res A) (texts : list string),
    forall p, m p = (r, emit texts p).

(** A computation raises nothing but instances of [Exception]. *)
Definition raises_exceptions_only {A} (m : M A) : Prop :=
  forall (p p' : process) (err : exception),
    m p = (Throw err, p') -> isinstance err Exception = true.

(** [exec(code, globals)] for the fragment, with [steps] statement steps
    at most. *)
Definition mini_exec (steps : nat) (code : string)
    (globals : gmap string (gmap string builtin)) (p : process)
  : option (outcome * process) :=
  match parse code, globals !! "__builtins__" with
  | Some prog, Some builtins =>
      match run builtins steps prog (VDict <$> globals) p with
      | (Ok _, p') => Some (Finished, p')
      | (Throw e, p') => Some (Raised e, p')
      | (Timeout, _) | (Unsupported, _) => None
      end
  | _, _ => None
  end.

End MiniPy.

(** ** Syntax trees of the [ast] module

    [analyze_syntax] looks at a tree through [ast.walk] and [isinstance]
    only, so a node is its class, with the two attributes of a [Name] the
    function reads, and its child nodes in field order. *)

Module Ast.
Import Py.

Inductive node_class :=
| FunctionDef
| AsyncFunctionDef
| ClassDef
| Name (id : string) (lineno : nat)
| Other (class_name : string).

Inductive node :=
| Node (cls : node_class) (fields : list node).

Definition node_cls (n : node) : node_class :=
  match n with Node c _ => c end.

Definition iter_child_nodes (n : node) : list node :=
  match n with Node _ cs => cs end.

Fixpoint size (n : node) : nat :=
  match n with Node _ cs => S (list_sum (List.map size cs)) end.

Definition forest_size (ns : list node) : nat := list_sum (List.map size ns).

(** [ast.walk]: a queue that starts with the tree; each turn takes the
    first node, puts its children at the end and yields it.  The loop
    runs once per node, so [size tree] turns empty the queue. *)
Fixpoint walk_queue (turns : nat) (todo : list node) : list node :=
  match turns, todo with
  | S turns, n :: todo => n :: walk_queue turns (todo ++ iter_child_nodes n)
  | _, _ => []
  end.

Definition walk (tree : node) : list node := walk_queue (size tree) [tree].

(** The nodes of a tree, root first, each subtree in turn. *)
Fixpoint preorder (n : node) : list node :=
  match n with Node _ cs => n :: List.flat_map preorder cs end.

(** The nodes at depth [d], from left to right. *)
Fixpoint level (d : nat) (n : node) : list node :=
  match d with
  | O => [n]
  | S d => List.flat_map (level d) (iter_child_nodes n)
  end.

(** What [ast.parse] gives: a tree, or an exception, with the value of its
    [lineno] attribute when it is a [SyntaxError]. *)
Inductive parsed :=
| Tree (tree : node)
| Fault (e : exception) (lineno : option nat).

(** The host's [ast.parse(code)]; [None] where the model of the host has
    no answer. *)
Definition parse_behaviour : Type := string -> option parsed.

End Ast.

(** ** The quick analysis of app.py *)

Module Analysis.
Import Py Ast.

(** The values [analyze_syntax] stores in its dictionary. *)
Inductive field :=
| FBool (b : bool)
| FInt (n : nat)
| FStr (s : string)
| FList (items : list string)
| FLineno (lineno : option nat).

(** The function returns a dictionary, or an exception leaves it. *)
Inductive analysis :=
| Dict (d : gmap string field)
| Escapes (e : exception).

(** The list of line 69. *)
Definition shadowed : list string :=
  ["sum"; "list"; "dict"; "set"; "tuple"; "str"; "int"; "float"].

Definition is_FunctionDef (n : node) : bool :=
  match node_cls n with FunctionDef => true | _ => false end.

Definition is_ClassDef (n : node) : bool :=
  match node_cls n with ClassDef => true | _ => false end.

(** Lines 69-70: the text appended for a node, if any. *)
Definition basic_issue (n : node) : option string :=
  match node_cls n with
  | Name id lineno =>
      if bool_decide (id ∈ shadowed)
      then Some ("Line " +:+ MiniPy.int_str (Z.of_nat lineno)
                 +:+ ": Variable '" +:+ id +:+ "' shadows built-in")
      else None
  | _ => None
  end.

(** Lines 68-70: the loop over [ast.walk(tree)], appending to [issues]. *)
Definition collect_issues (nodes : list node) : list string :=
  foldl (fun issues n =>
           match basic_issue n with
           | Some text => issues ++ [text]
           | None => issues
           end)%list [] nodes.

Section Analyze.

Variable ast_parse : parse_behaviour.

(** [analyze_syntax], lines 57-83. *)
Definition analyze_syntax (code : string) : option analysis :=
  match ast_parse code with
  | None => None
  | Some (Tree tree) =>
      let functions := List.length (List.filter is_FunctionDef (walk tree)) in
      let classes := List.length (List.filter is_ClassDef (walk tree)) in
      let issues := collect_issues (walk tree) in
      Some (Dict (list_to_map
                    [ ("syntax_valid", FBool true);
                      ("functions", FInt functions);
                      ("classes", FInt classes);
                      ("basic_issues", FList issues) ]))
  | Some (Fault e lineno) =>
      if isinstance e SyntaxError
      then Some (Dict (list_to_map
                         [ ("syntax_valid", FBool false);
                           ("error", FStr (str e));
                           ("line", FLineno lineno) ]))
      else Some (Escapes e)
  end.

End Analyze.

End Analysis.

(** ** The panel of [main] that calls [analyze_syntax] *)

Module Main.
Import Py App Ast Analysis.

(** The Streamlit elements the panels of [main] emit. *)
Inductive element :=
| st_success (body : string)
| st_info (body : string)
| st_warning (body : string)
| st_text (body : string)
| st_error (body : string)
| st_code (body : string) (language : string).

(** What stops a panel before its end: a subscript that finds no key, or
    an exception that leaves a called function. *)
Inductive fault :=
| KeyError (key : string)
| Raises (e : exception).

(** A piece of the script: the elements it emits, then its value or the
    fault that stops it; [None] where the model has no answer. *)
Definition script (A : Type) : Type := option (list element * (fault + A)).

Definition done {A} (a : A) : script A := Some ([], inr a).

Definition stop {A} (f : fault) : script A := Some ([], inl f).

Definition unmodelled {A} : script A := None.

Definition emit_element (el : element) : script unit := Some ([el], inr tt).

Definition then_ {A B} (m : script A) (k : A -> script B) : script B :=
  match m with
  | None => None
  | Some (out, inl f) => Some (out, inl f)
  | Some (out, inr a) =>
      match k a with
      | None => None
      | Some (out', r) => Some ((out ++ out')%list, r)
      end
  end.

Notation "'let*' x := m 'in' k" := (then_ m (fun x => k))
  (at level 10, x name, m at level 100, k at level 200).

(** [d[key]] *)
Definition subscript (d : gmap string field) (key : string) : script field :=
  match d !! key with
  | Some v => done v
  | None => stop (KeyError key)
  end.

(** Truth value of a stored value, as [if] takes it. *)
Definition field_truth (v : field) : bool :=
  match v with
  | FBool b => b
  | FInt n => negb (n =? 0)%nat
  | FStr s => truthy s
  | FList items => match items with [] => false | _ :: _ => true end
  | FLineno None => false
  | FLineno (Some n) => negb (n =? 0)%nat
  end.

(** The text a replacement field of an f-string gives, for the values
    whose text the model knows. *)
Definition format_field (v : field) : script string :=
  match v with
  | FInt n => done (MiniPy.int_str (Z.of_nat n))
  | FStr s => done s
  | FBool true => done "True"
  | FBool false => done "False"
  | FList _ | FLineno _ => unmodelled
  end.

(** The items a [for] loop takes from a stored list. *)
Definition iterate (v : field) : script (list string) :=
  match v with
  | FList items => done items
  | _ => unmodelled
  end.

Fixpoint for_each (items : list string) (body : string -> script unit)
  : script unit :=
  match items with
  | [] => done tt
  | item :: rest => let* _ := body item in for_each rest body
  end.

Section Panels.

Variable ast_parse : parse_behaviour.

Definition call_analyze_syntax (code : string)
  : script (gmap string field) :=
  match analyze_syntax ast_parse code with
  | None => unmodelled
  | Some (Dict d) => done d
  | Some (Escapes e) => stop (Raises e)
  end.

(** Lines 252-262: the quick analysis shown beside the code. *)
Definition quick_analysis (code_input : string) : script unit :=
  if truthy code_input
  then
    let* analysis := call_analyze_syntax code_input in
    let* valid := subscript analysis "syntax_valid" in
    if field_truth valid
    then
      let* _ := emit_element (st_success "✅ Syntax is valid") in
      let* functions := subscript analysis "functions" in
      let* ftext := format_field functions in
      let* classes := subscript analysis "classes" in
      let* ctext := format_field classes in
      let* _ := emit_element
                  (st_info ("Functions: " +:+ ftext
                            +:+ " | Classes: " +:+ ctext)) in
      let* issues := subscript analysis "basic_issues" in
      if field_truth issues
      then
        let* _ := emit_element (st_warning "⚠️ Basic issues detected") in
        let* issues := subscript analysis "basic_issues" in
        let* items := iterate issues in
        for_each items (fun issue => emit_element (st_text issue))
      else done tt
    else
      let* err := subscript analysis "error" in
      let* text := format_field err in
      emit_element (st_error ("❌ Syntax Error: " +:+ text))
  else done tt.

End Panels.

End Main.

(** ** Sources with their trees

    [ast.parse] on three sources, written out by hand; no answer for any
    other source. *)

Module Samples.
Import Py App Ast MiniPy.

Definition leaf (class_name : string) : node := Node (Other class_name) [].

Definition name_load (id : string) (lineno : nat) : node :=
  Node (Name id lineno) [leaf "Load"].

Definition name_store (id : string) (lineno : nat) : node :=
  Node (Name id lineno) [leaf "Store"].

Definition arguments (names : list string) : node :=
  Node (Other "arguments") (List.map (fun _ => leaf "arg") names).

(** A function with a parameter called [list], a call of [sum], and a
    class with a method. *)
Definition totals_source : string :=
  "def total(list):" +:+ nl +:+
  "    return sum(list)" +:+ nl +:+
  "class K:" +:+ nl +:+
  "    def m(self): pass" +:+ nl.

Definition totals_tree : node :=
  Node (Other "Module")
    [ Node FunctionDef
        [ arguments ["list"];
          Node (Other "Return")
            [ Node (Other "Call") [name_load "sum" 2; name_load "list" 2] ] ];
      Node ClassDef
        [ Node FunctionDef [arguments ["self"]; leaf "Pass"] ] ].

(** A deep name on line 1 and a shallow one on line 2. *)
Definition order_source : string :=
  "x = len(sum)" +:+ nl +:+ "list".

Definition order_tree : node :=
  Node (Other "Module")
    [ Node (Other "Assign")
        [ name_store "x" 1;
          Node (Other "Call") [name_load "len" 1; name_load "sum" 1] ];
      Node (Other "Expr") [name_load "list" 2] ].

Definition broken_source : string := "1 +".

Definition sample_parse : parse_behaviour :=
  fun code =>
    if bool_decide (code = totals_source) then Some (Tree totals_tree)
    else if bool_decide (code = order_source) then Some (Tree order_tree)
    else if bool_decide (code = broken_source)
    then Some (Fault (Exc SyntaxError "invalid syntax (<unknown>, line 1)")
                 (Some 1))
    else None.

(** Sources that reach the host through [print.__self__], the module
    builtins, and a source that raises an exception whose [str] raises. *)

(** Prints a text without a newline. *)
Definition prints_without_newline : string :=
  "print('Error: division by zero', end='')".

(** Closes the object bound to [sys.stdout], the capture buffer. *)
Definition closes_buffer : string :=
  "print.__self__.__import__('sys').stdout.close()".

Definition prints_then_closes_buffer : string :=
  "print('hi'); print.__self__.__import__('sys').stdout.close()".

(** Rebinds the global [sys] of the calling function's module to the
    module [io]. *)
Definition rebinds_sys : string :=
  "print.__self__.__import__('sys')._getframe(1).f_globals['sys']"
  +:+ " = print.__self__.__import__('io')".

(** Fails an assertion with a list nested 100000 deep as its message. *)
Definition asserts_deep_list : string :=
  "l = []" +:+ nl +:+
  "for i in range(100000): l = [l]" +:+ nl +:+
  "assert 0, l".

(** Puts on the capture buffer an attribute [getvalue] that gives an
    empty text of a subclass of [str] whose truth value is true. *)
Definition shadows_getvalue : string :=
  "t = print.__self__.type" +:+ nl +:+
  "S = t('S', (str,), {'__bool__': lambda s: True})" +:+ nl +:+
  "print.__self__.__import__('sys').stdout.getvalue = lambda: S()".

Definition closed_file : exception :=
  Exc ValueError "I/O operation on closed file".

Definition repr_too_deep : exception :=
  Exc RecursionError
    "maximum recursion depth exceeded while getting the repr of an object".

(** The interpreter with ten steps, and the runs of the sources above,
    which are outside its fragment. *)
Definition sample_exec : exec_behaviour :=
  fun code globals p =>
    if bool_decide (code = prints_without_newline)
    then Some (Finished, write (sys_stdout p) "Error: division by zero" p)
    else if bool_decide (code = closes_buffer)
    then Some (Tampered Normally
                 (Tampering (GetvalueRaises closed_file) Rebinds), p)
    else if bool_decide (code = prints_then_closes_buffer)
    then Some (Tampered Normally
                 (Tampering (GetvalueRaises closed_file) Rebinds),
               write (sys_stdout p) ("hi" +:+ nl) p)
    else if bool_decide (code = rebinds_sys)
    then Some (Tampered Normally (Tampering ReadsBuffer MissesSys), p)
    else if bool_decide (code = shadows_getvalue)
    then Some (Tampered Normally (Tampering (GetvalueGives "" true) Rebinds),
               p)
    else if bool_decide (code = asserts_deep_list)
    then Some (RaisedOpaque AssertionError repr_too_deep, p)
    else mini_exec 10 code globals p.

End Samples.

(** * Properties *)

Import Py App MiniPy.

(** ** Streams and buffers *)

Lemma app_cons (c : ascii) (s t : string) :
  String c s +:+ t = String c (s +:+ t).
Proof. reflexivity. Qed.

Lemma app_empty_r (s : string) : s +:+ "" = s.
Proof. induction s as [|c s IH]; [done | by rewrite app_cons, IH]. Qed.

Lemma app_assoc (s t u : string) : (s +:+ t) +:+ u = s +:+ t +:+ u.
Proof. induction s as [|c s IH]; [done | by rewrite !app_cons, IH]. Qed.

Lemma truthy_false (s : string) : truthy s = false <-> s = "".
Proof. destruct s; simpl; split; congruence. Qed.

Lemma redirect_stdout (p : process) :
  sys_stdout (redirect p).2 = (redirect p).1.
Proof. reflexivity. Qed.

(** The buffer [sys.stdout] is redirected to is new: it is not the
    stream that was bound before. *)
Lemma redirect_fresh (p : process) : (redirect p).1 <> sys_stdout p.
Proof.
  unfold redirect, StringIO; simpl.
  set (X := {[sys_stdout p]} ∪ dom (written p)).
  pose proof (is_fresh X) as Hfresh.
  intros Heq. apply Hfresh. rewrite Heq. subst X. set_solver.
Qed.

Lemma redirect_empty (p : process) :
  getvalue (redirect p).1 (redirect p).2 = "".
Proof.
  unfold redirect, StringIO, getvalue; simpl. by rewrite lookup_insert_eq.
Qed.

Lemma getvalue_write (s : stream) (text : string) (p : process) :
  getvalue s (write s text p) = getvalue s p +:+ text.
Proof. unfold write, getvalue at 1; simpl. by rewrite lookup_insert_eq. Qed.

Lemma getvalue_write_ne (s r : stream) (text : string) (p : process) :
  s <> r -> getvalue r (write s text p) = getvalue r p.
Proof.
  intros Hne. unfold write, getvalue at 1; simpl.
  by rewrite lookup_insert_ne.
Qed.

Lemma emit_cons (t : string) (texts : list string) (p : process) :
  emit (t :: texts) p = emit texts (write (sys_stdout p) t p).
Proof. reflexivity. Qed.

Lemma sys_stdout_emit (texts : list string) (p : process) :
  sys_stdout (emit texts p) = sys_stdout p.
Proof.
  revert p. induction texts as [|t texts IH]; intros p; [done|].
  by rewrite emit_cons, IH.
Qed.

Lemma emit_app (xs ys : list string) (p : process) :
  emit (xs ++ ys) p = emit ys (emit xs p).
Proof. unfold emit. apply foldl_app. Qed.

Lemma getvalue_emit (texts : list string) (p : process) :
  getvalue (sys_stdout p) (emit texts p)
  = getvalue (sys_stdout p) p +:+ concat_texts texts.
Proof.
  revert p. induction texts as [|t texts IH]; intros p.
  - simpl. by rewrite app_empty_r.
  - rewrite emit_cons.
    change (sys_stdout p) with (sys_stdout (write (sys_stdout p) t p)) at 1.
    rewrite IH. simpl. by rewrite getvalue_write, app_assoc.
Qed.

Lemma getvalue_emit_ne (texts : list string) (r : stream) (p : process) :
  sys_stdout p <> r -> getvalue r (emit texts p) = getvalue r p.
Proof.
  revert p. induction texts as [|t texts IH]; intros p Hne; [done|].
  rewrite emit_cons, IH by done. by apply getvalue_write_ne.
Qed.

(** ** Exception classes *)

(** The faults of a source text are instances of [Exception]; the three
    classes that derive from [BaseException] alone are not. *)
Lemma fault_classes :
  Forall (fun c => issubclass c Exception = true)
    [SyntaxError; NameError; TypeError; ZeroDivisionError; RecursionError;
     ImportError; ValueError; ArithmeticError; RuntimeError; Exception]
  /\ Forall (fun c => issubclass c Exception = false)
       [SystemExit; KeyboardInterrupt; GeneratorExit; BaseException].
Proof. split; repeat constructor. Qed.

(** ** The boundary, for every behaviour of [exec] *)

Section BoundaryProperties.

Variable exec : exec_behaviour.

(** The function in terms of the run of [exec] in the redirected
    process. *)
Lemma execute_code_safely_eq (code : string) (p : process) :
  execute_code_safely exec code p =
  match exec code exec_globals (redirect p).2 with
  | None => None
  | Some (o, p1) =>
      Some (relay o (getvalue (redirect p).1 p1),
            assign_sys_stdout (on_restore (tampering_of o)) (sys_stdout p) p1)
  end.
Proof.
  unfold execute_code_safely, relay. destruct (redirect p) as [buf q].
  simpl. destruct (exec code exec_globals q) as [[o p1]|]; [|done].
  destruct (ending_of o); [|done..].
  by destruct (on_getvalue (tampering_of o)).
Qed.

(** A run that left the buffer and the caller's [sys] alone. *)
Lemma execute_untouched (code : string) (p p1 : process) (o : outcome) :
  exec code exec_globals (redirect p).2 = Some (o, p1) ->
  untouched o = true ->
  execute_code_safely exec code p =
  Some (relay o (getvalue (redirect p).1 p1),
        set_sys_stdout (sys_stdout p) p1).
Proof.
  intros H Ho. rewrite execute_code_safely_eq, H. by destruct o.
Qed.

Lemma execute_finished (code : string) (p p1 : process) :
  exec code exec_globals (redirect p).2 = Some (Finished, p1) ->
  execute_code_safely exec code p =
  Some (Returns (if truthy (getvalue (redirect p).1 p1)
                 then getvalue (redirect p).1 p1 else no_output_message),
        set_sys_stdout (sys_stdout p) p1).
Proof. intros H. by rewrite execute_code_safely_eq, H. Qed.

Lemma execute_raised (code : string) (p p1 : process) (e : exception) :
  exec code exec_globals (redirect p).2 = Some (Raised e, p1) ->
  execute_code_safely exec code p =
  Some (if isinstance e Exception then Returns ("Error: " +:+ str e)
        else Propagates e,
        set_sys_stdout (sys_stdout p) p1).
Proof. intros H. by rewrite execute_code_safely_eq, H. Qed.

(** What a run wrote to standard output is what the capture buffer
    holds: the buffer is what [sys.stdout] is bound to during the run,
    and it was empty when the run began. *)
Lemma wrote_to_fresh_buffer (p p1 : process) (T : string) :
  wrote T (redirect p).2 p1 ->
  getvalue (redirect p).1 p1 = T.
Proof. unfold wrote. by rewrite redirect_stdout, redirect_empty. Qed.






End BoundaryProperties.


(** ** Two calls in a row *)

Section Sequential.

Variable exec : exec_behaviour.

(** Assigning [sys.stdout] changes no text. *)
Lemma getvalue_assign_sys_stdout
    (r : restore_effect) (old s : stream) (q : process) :
  getvalue s (assign_sys_stdout r old q) = getvalue s q.
Proof. by destruct r. Qed.

(** What the call gives for a pure source: a completion fixed by the way
    the run ends and by the texts it prints. *)
Lemma execute_pure (code : string) (o : outcome) (texts : list string) :
  (forall p, exec code exec_globals p = Some (o, emit texts p)) ->
  forall p,
    execute_code_safely exec code p =
    Some (relay o (concat_texts texts),
          assign_sys_stdout (on_restore (tampering_of o)) (sys_stdout p)
            (emit texts (redirect p).2)).
Proof.
  intros H p. rewrite execute_code_safely_eq, H.
  rewrite <- redirect_stdout, getvalue_emit, redirect_stdout, redirect_empty.
  reflexivity.
Qed.

(** C8: for a pure source, a call and the call that follows it, made in
    the process the first one left behind, hand back the same completion. *)
Theorem pure_source_same_result_twice (code : string) :
  pure_source exec code ->
  forall p, exists c p1 p2,
    execute_code_safely exec code p = Some (c, p1) /\
    execute_code_safely exec code p1 = Some (c, p2).
Proof.
  intros (o & texts & H) p.
  pose proof (execute_pure code o texts H) as E.
  eexists _, _, _. split; [apply E|]. rewrite E. reflexivity.
Qed.

(** The printed texts go to the capture buffer only: the stream that was
    bound to [sys.stdout] before the call holds what it held. *)
Lemma pure_call_leaves_old_stream (code : string) (o : outcome)
    (texts : list string) (p p' : process) (c : completion) :
  (forall p, exec code exec_globals p = Some (o, emit texts p)) ->
  execute_code_safely exec code p = Some (c, p') ->
  getvalue (sys_stdout p) p' = getvalue (sys_stdout p) p.
Proof.
  intros H. rewrite (execute_pure code o texts H). intros [= _ <-].
  rewrite getvalue_assign_sys_stdout, getvalue_emit_ne.
  - unfold redirect, StringIO, getvalue; simpl.
    rewrite lookup_insert_ne; [done|]. apply (redirect_fresh p).
  - exact (redirect_fresh p).
Qed.

End Sequential.

(** ** Runs of the fragment *)

Import Samples.







(** [print('hi')] is pure, so by C8 two calls in a row agree. *)
Lemma print_hi_same_result_twice :
  exists c p1 p2,
    execute_code_safely (mini_exec 10) "print('hi')" startup = Some (c, p1) /\
    execute_code_safely (mini_exec 10) "print('hi')" p1 = Some (c, p2).
Proof.
  apply (pure_source_same_result_twice (mini_exec 10) "print('hi')").
  exists Finished, ["hi" +:+ nl]. intros p. vm_compute. reflexivity.
Defined.


(** C1, as stated, fails in a second way, which the amended statement
    keeps apart: the message of the failed assertion is a list nested so
    deep that [str(e)] of line 205 raises [RecursionError] inside the
    handler, and that exception leaves the function. *)
Example assertion_with_deep_message_propagates :
  sample_exec asserts_deep_list exec_globals (redirect startup).2
  = Some (RaisedOpaque AssertionError repr_too_deep, (redirect startup).2)
  /\ issubclass AssertionError Exception = true
  /\ execute_code_safely sample_exec asserts_deep_list startup
     = Some (Propagates repr_too_deep, set_sys_stdout 0 (redirect startup).2).
Proof. repeat split; vm_compute; reflexivity. Qed.





(** C6, as stated, fails: [bool], the boolean constructor the stated
    categories call for, is not bound, and [dict], which is in none of
    the stated categories, is. *)
Lemma allowlist_differs_from_stated_names :
  (("bool" ∈ stated_names) /\ (allowlist !! "bool") = None)
  /\ (("dict" ∉ stated_names) /\ (allowlist !! "dict") = Some py_dict)
  /\ execute_code_safely (mini_exec 10) "bool(1)" startup
     = Some (Returns "Error: name 'bool' is not defined",
             set_sys_stdout 0 (redirect startup).2).
Proof.
  split; [split | split; [split|]].
  - apply (bool_decide_unpack _). vm_compute. exact I.
  - vm_compute. reflexivity.
  - apply (bool_decide_unpack _). vm_compute. exact I.
  - vm_compute. reflexivity.
  - vm_compute. reflexivity.
Qed.

(** C6, amended: the allowlist binds exactly the sixteen names of the
    dictionary literal: those of the stated categories without [bool],
    and [dict]. *)
Theorem allowlist_names (x : string) :
  is_Some (allowlist !! x) <->
  x ∈ [ "print"; "len"; "str"; "int"; "float"; "list"; "dict"; "range";
        "enumerate"; "zip"; "max"; "min"; "sum"; "sorted"; "abs"; "round" ].
Proof.
  unfold allowlist.
  rewrite <- elem_of_dom, dom_list_to_map_L, elem_of_list_to_set.
  reflexivity.
Qed.

(** C9: the empty source is run like any other; nothing is printed and
    the fixed sentence is returned, with any number of steps and in any
    process. *)
Theorem empty_source_returns_sentinel (steps : nat) (p : process) :
  execute_code_safely (mini_exec steps) "" p
  = Some (Returns "Code executed successfully (no output)",
          set_sys_stdout (sys_stdout p) (redirect p).2).
Proof.
  assert (mini_exec steps "" exec_globals (redirect p).2
          = Some (Finished, (redirect p).2)) as H.
  { unfold mini_exec. by destruct steps. }
  rewrite (execute_finished _ _ _ _ H), redirect_empty. reflexivity.
Qed.

(** ** Names the allowlist does not bind *)

(** Induction on expressions, with the arguments of a call. *)
Lemma expr_induction (P : expr -> Prop) :
  (forall x, P (EName x)) ->
  (forall z, P (EInt z)) ->
  (forall s, P (EStr s)) ->
  (forall c, P (EConst c)) ->
  (forall e, P e -> P (ENeg e)) ->
  (forall op l r, P l -> P r -> P (EBin op l r)) ->
  (forall e x, P e -> P (EAttr e x)) ->
  (forall f args, P f -> Forall P args -> P (ECall f args)) ->
  forall e, P e.
Proof.
  intros Hname Hint Hstr Hconst Hneg Hbin Hattr Hcall.
  fix IH 1. intros [x|z|s|c|e|op l r|e x|f args].
  - apply Hname.
  - apply Hint.
  - apply Hstr.
  - apply Hconst.
  - apply Hneg, IH.
  - apply Hbin; apply IH.
  - apply Hattr, IH.
  - apply Hcall; [apply IH|].
    induction args as [|a args IHargs]; constructor; [apply IH | exact IHargs].
Qed.

Lemma name_start_not_space (c : ascii) :
  is_name_start c = true -> bool_decide (c = " "%char) = false.
Proof.
  intros H. apply bool_decide_eq_false. intros ->. discriminate H.
Qed.

Lemma name_char_not_newline (c : ascii) :
  is_name_char c = true -> bool_decide (c = newline) = false.
Proof.
  intros H. apply bool_decide_eq_false. intros ->. discriminate H.
Qed.

Lemma lex_start_name (c : ascii) :
  is_name_start c = true -> lex_start c = Some ([], LWord (String c "")).
Proof.
  intros H. unfold lex_start. by rewrite (name_start_not_space c H), H.
Qed.

Lemma snoc_app (acc : string) (c : ascii) (r : string) :
  snoc acc c +:+ r = acc +:+ String c r.
Proof. unfold snoc. by rewrite app_assoc. Qed.

(** A word under way that runs to the end of the line. *)
Lemma lex_word_to_end (r acc : string) :
  all_name_chars r = true ->
  lex (LWord acc) r = Some [word_token (acc +:+ r)].
Proof.
  revert acc. induction r as [|c r IH]; intros acc H; simpl in *.
  - by rewrite app_empty_r.
  - apply andb_prop in H as [Hc Hr]. by rewrite Hc, IH, snoc_app.
Qed.

(** A word under way that a closing parenthesis ends. *)
Lemma lex_word_then_close (r acc : string) :
  all_name_chars r = true ->
  lex (LWord acc) (r +:+ ")") = Some [word_token (acc +:+ r); TOp ")"].
Proof.
  revert acc. induction r as [|c r IH]; intros acc H.
  - by rewrite app_empty_r.
  - simpl in H. apply andb_prop in H as [Hc Hr].
    rewrite app_cons. simpl. by rewrite Hc, IH, snoc_app.
Qed.

Lemma identifier_inv (x : string) :
  is_plain_name x = true ->
  exists c r, x = String c r /\ is_name_start c = true
              /\ all_name_chars r = true /\ word_token x = TName x.
Proof.
  unfold is_plain_name. intros H. apply andb_prop in H as [H Hres].
  destruct x as [|c r]; [discriminate|].
  apply andb_prop in H as [Hc Hr]. exists c, r. repeat split; try done.
  unfold word_token. by destruct (bool_decide (String c r ∈ reserved)).
Qed.

Lemma lex_identifier (x : string) :
  is_plain_name x = true -> lex LStart x = Some [TName x].
Proof.
  intros (c & r & -> & Hc & Hr & Hw)%identifier_inv.
  simpl. rewrite (lex_start_name c Hc). simpl.
  rewrite (lex_word_to_end r _ Hr).
  change (String c "" +:+ r) with (String c r). by rewrite Hw.
Qed.

Lemma lex_after_print_open (s : string) :
  lex LStart ("print(" +:+ s)
  = rest ← lex LStart s; Some (TName "print" :: TOp "(" :: rest).
Proof.
  transitivity
    (rest0 ← (rest ← lex LStart s;
              Some (TName "print" :: [TOp "("] ++ rest)%list);
     Some ([] ++ rest0)%list).
  - reflexivity.
  - destruct (lex LStart s); reflexivity.
Qed.

Lemma lex_print_identifier (x : string) :
  is_plain_name x = true ->
  lex LStart ("print(" +:+ x +:+ ")")
  = Some [TName "print"; TOp "("; TName x; TOp ")"].
Proof.
  intros (c & r & -> & Hc & Hr & Hw)%identifier_inv.
  rewrite lex_after_print_open, app_cons. simpl.
  rewrite (lex_start_name c Hc). simpl.
  rewrite (lex_word_then_close r _ Hr).
  change (String c "" +:+ r) with (String c r). by rewrite Hw.
Qed.

Lemma all_name_chars_one_line (s : string) :
  all_name_chars s = true -> one_line s = true.
Proof.
  induction s as [|c s IH]; [done|]. simpl.
  intros [Hc Hs]%andb_prop. by rewrite (name_char_not_newline c Hc), IH.
Qed.

Lemma one_line_app (s t : string) :
  one_line (s +:+ t) = one_line s && one_line t.
Proof.
  induction s as [|c s IH]; [done|]. rewrite app_cons. simpl.
  by rewrite IH, andb_assoc.
Qed.

Lemma identifier_one_line (x : string) :
  is_plain_name x = true -> one_line x = true.
Proof.
  intros (c & r & -> & Hc & Hr & _)%identifier_inv.
  apply all_name_chars_one_line. simpl. rewrite Hr.
  unfold is_name_char. by rewrite Hc.
Qed.

Lemma lines_one_line (s cur : string) :
  one_line s = true -> lines_from cur s = [cur +:+ s].
Proof.
  revert cur. induction s as [|c s IH]; intros cur H; simpl in *.
  - by rewrite app_empty_r.
  - apply andb_prop in H as [Hc Hs]. apply negb_true_iff in Hc.
    by rewrite Hc, IH, snoc_app.
Qed.

Lemma identifier_starts_line (x : string) :
  is_plain_name x = true -> is_blank x = false /\ is_indented x = false.
Proof.
  intros (c & r & -> & Hc & _)%identifier_inv. simpl.
  by rewrite (name_start_not_space c Hc).
Qed.

Lemma parse_identifier (x : string) :
  is_plain_name x = true -> parse x = Some [SExpr (EName x)].
Proof.
  intros H. unfold parse, lines.
  rewrite (lines_one_line x "" (identifier_one_line x H)).
  change ("" +:+ x) with x. simpl. unfold parse_source_line.
  destruct (identifier_starts_line x H) as [-> ->].
  by rewrite (lex_identifier x H).
Qed.

Lemma parse_print_identifier (x : string) :
  is_plain_name x = true ->
  parse ("print(" +:+ x +:+ ")")
  = Some [SExpr (ECall (EName "print") [EName x])].
Proof.
  intros H. unfold parse, lines. rewrite lines_one_line.
  - change ("" +:+ "print(" +:+ x +:+ ")") with ("print(" +:+ x +:+ ")").
    simpl. unfold parse_source_line.
    change (is_blank ("print(" +:+ x +:+ ")")) with false.
    change (is_indented ("print(" +:+ x +:+ ")")) with false.
    by rewrite (lex_print_identifier x H).
  - rewrite !one_line_app, (identifier_one_line x H). reflexivity.
Qed.

(** The rule of name resolution: a name that neither the globals nor
    the built-ins of the frame bind raises [NameError]. *)
Lemma load_name_unbound
    (b : gmap string builtin) (g : gmap string value) (x : string)
    (p : process) :
  g !! x = None -> b !! x = None ->
  load_name b g x p
  = (Throw (Exc NameError ("name '" +:+ x +:+ "' is not defined")), p).
Proof. intros Hg Hb. unfold load_name. by rewrite Hg, Hb. Qed.

(** The globals [exec] starts from bind [__builtins__] and nothing else. *)
Lemma initial_globals_lookup (x : string) :
  x <> "__builtins__" ->
  (VDict <$> exec_globals : gmap string value) !! x = None.
Proof.
  intros Hx. unfold exec_globals.
  by rewrite lookup_fmap, lookup_singleton_ne.
Qed.

Lemma load_print (q : process) :
  load_name allowlist (VDict <$> exec_globals) "print" q
  = (Ok (VBuiltin py_print), q).
Proof. reflexivity. Qed.

Lemma mini_exec_unbound_name (steps : nat) (x : string) (q : process) :
  is_plain_name x = true -> allowlist !! x = None -> x <> "__builtins__" ->
  mini_exec (S steps) x exec_globals q
  = Some (Raised (Exc NameError ("name '" +:+ x +:+ "' is not defined")), q).
Proof.
  intros Hid Hallow Hx. unfold mini_exec. rewrite (parse_identifier x Hid).
  change (exec_globals !! "__builtins__") with (Some allowlist).
  cbv beta iota.
  change (run allowlist (S steps) [SExpr (EName x)] (VDict <$> exec_globals) q)
    with (bind (load_name allowlist (VDict <$> exec_globals) x)
               (fun _ => run allowlist steps [] (VDict <$> exec_globals)) q).
  unfold bind.
  by rewrite (load_name_unbound _ _ x q (initial_globals_lookup x Hx) Hallow).
Qed.

Lemma mini_exec_print_unbound_name (steps : nat) (x : string) (q : process) :
  is_plain_name x = true -> allowlist !! x = None -> x <> "__builtins__" ->
  mini_exec (S steps) ("print(" +:+ x +:+ ")") exec_globals q
  = Some (Raised (Exc NameError ("name '" +:+ x +:+ "' is not defined")), q).
Proof.
  intros Hid Hallow Hx. unfold mini_exec.
  rewrite (parse_print_identifier x Hid).
  change (exec_globals !! "__builtins__") with (Some allowlist).
  cbv beta iota.
  set (g := VDict <$> exec_globals).
  change (run allowlist (S steps) [SExpr (ECall (EName "print") [EName x])] g q)
    with (bind
            (bind (load_name allowlist g "print")
               (fun vf =>
                  bind (bind (load_name allowlist g x)
                          (fun v => bind (ret []) (fun vs => ret (v :: vs))))
                       (fun vs => call vf vs)))
            (fun _ => run allowlist steps [] g) q).
  unfold bind at 1 2. subst g. rewrite load_print. unfold bind.
  by rewrite (load_name_unbound _ _ x q (initial_globals_lookup x Hx) Hallow).
Qed.

(** *** Names in any position *)

Lemma bind_ok {A B} (m : M A) (k : A -> M B) (p p' : process) (b : B) :
  bind m k p = (Ok b, p') ->
  exists a p1, m p = (Ok a, p1) /\ k a p1 = (Ok b, p').
Proof.
  unfold bind. destruct (m p) as [[a|err| |] p1]; try discriminate. eauto.
Qed.

Lemma bind_throw {A B} (m : M A) (k : A -> M B) (p p' : process)
    (err : exception) :
  m p = (Throw err, p') -> bind m k p = (Throw err, p').
Proof. intros H. unfold bind. by rewrite H. Qed.

(** An expression that starts with a name nothing binds raises
    [NameError] for that name before it does anything else. *)
Lemma eval_leading_unbound
    (b : gmap string builtin) (g : gmap string value) (e : expr)
    (x : string) (p : process) :
  leading_name e = Some x -> g !! x = None -> b !! x = None ->
  eval b g e p
  = (Throw (Exc NameError ("name '" +:+ x +:+ "' is not defined")), p).
Proof.
  intros Hlead Hg Hb.
  induction e as [y|z|s|c|e IH|op l r IHl IHr|e y IH|f args IHf IHargs]
    using expr_induction; simpl in Hlead; try discriminate.
  - injection Hlead as ->. by apply load_name_unbound.
  - simpl. by apply bind_throw, IH.
  - simpl. by apply bind_throw, IHl.
  - simpl. by apply bind_throw, IH.
  - simpl. by apply bind_throw, IHf.
Qed.

(** An expression evaluates to a value only if every name it mentions is
    bound, in the globals or in the built-ins of the frame: a name that
    neither binds is never given a value. *)
Lemma eval_ok_names_bound
    (b : gmap string builtin) (g : gmap string value) (e : expr)
    (p p' : process) (v : value) (x : string) :
  eval b g e p = (Ok v, p') ->
  x ∈ expr_names e ->
  is_Some (g !! x) \/ is_Some (b !! x).
Proof.
  revert p p' v.
  induction e as [y|z|s|c|e IH|op l r IHl IHr|e y IH|f args IHf IHargs]
    using expr_induction; intros p p' v Hev Hx; simpl in Hx.
  - apply list_elem_of_singleton in Hx as ->.
    simpl in Hev. unfold load_name in Hev.
    destruct (g !! y); [left; eauto|].
    destruct (b !! y); [right; eauto | discriminate].
  - by apply elem_of_nil in Hx.
  - by apply elem_of_nil in Hx.
  - by apply elem_of_nil in Hx.
  - simpl in Hev. apply bind_ok in Hev as (a & p1 & Ha & _). eauto.
  - simpl in Hev. apply bind_ok in Hev as (a & p1 & Ha & Hrest).
    apply bind_ok in Hrest as (c & p2 & Hc & _).
    apply elem_of_app in Hx as [Hx|Hx]; eauto.
  - simpl in Hev. apply bind_ok in Hev as (a & p1 & Ha & _). eauto.
  - simpl in Hev. apply bind_ok in Hev as (vf & p1 & Hf & Hrest).
    apply bind_ok in Hrest as (vs & p2 & Hargs & _).
    apply elem_of_app in Hx as [Hx|Hx]; [eauto|].
    clear Hf IHf. revert p1 p2 vs Hargs.
    induction IHargs as [|a args Ha _ IHrest]; intros p1 p2 vs Hargs;
      simpl in Hx; [by apply elem_of_nil in Hx|].
    apply bind_ok in Hargs as (va & p3 & Hva & Hrest).
    apply bind_ok in Hrest as (vs' & p4 & Hvs & _).
    apply elem_of_app in Hx as [Hx|Hx]; eauto.
Qed.

(** What the evaluation of an expression raises is an [Exception]. *)
Lemma only_exceptions_ret {A} (a : A) : raises_exceptions_only (ret a).
Proof. intros p p' err H. discriminate H. Qed.

Lemma only_exceptions_unsupported {A} : raises_exceptions_only (@unsupported A).
Proof. intros p p' err H. discriminate H. Qed.

Lemma only_exceptions_stdout_write (text : string) :
  raises_exceptions_only (stdout_write text).
Proof. intros p p' err H. discriminate H. Qed.

Lemma only_exceptions_throw {A} (e : exception) :
  isinstance e Exception = true -> raises_exceptions_only (@throw A e).
Proof. intros He p p' err [= <- _]. exact He. Qed.

Lemma only_exceptions_bind {A B} (m : M A) (k : A -> M B) :
  raises_exceptions_only m -> (forall a, raises_exceptions_only (k a)) ->
  raises_exceptions_only (bind m k).
Proof.
  intros Hm Hk p p' err. unfold bind.
  destruct (m p) as [[a|e| |] p1] eqn:E; intros H; try discriminate.
  - by eapply Hk.
  - injection H as -> ->. by eapply Hm.
Qed.

Create HintDb only_exceptions.

#[local] Hint Resolve only_exceptions_ret only_exceptions_unsupported
  only_exceptions_stdout_write : only_exceptions.

#[local] Hint Extern 1 (raises_exceptions_only (throw _)) =>
  apply only_exceptions_throw; reflexivity : only_exceptions.

Ltac only_exceptions_cases :=
  repeat case_match; subst;
  try (apply only_exceptions_bind; [|intros ?]);
  auto with only_exceptions.

Lemma only_exceptions_call (f : value) (args : list value) :
  raises_exceptions_only (call f args).
Proof.
  unfold call, call_builtin, instantiate, extremum. only_exceptions_cases.
Qed.

Lemma only_exceptions_getattr (v : value) (x : string) :
  raises_exceptions_only (getattr v x).
Proof. unfold getattr. only_exceptions_cases. Qed.

Lemma only_exceptions_binary (op : binop) (l r : value) :
  raises_exceptions_only (binary op l r).
Proof. unfold binary. only_exceptions_cases. Qed.

Lemma only_exceptions_load_name
    (b : gmap string builtin) (g : gmap string value) (x : string) :
  raises_exceptions_only (load_name b g x).
Proof. unfold load_name. only_exceptions_cases. Qed.

Lemma only_exceptions_eval
    (b : gmap string builtin) (g : gmap string value) (e : expr) :
  raises_exceptions_only (eval b g e).
Proof.
  induction e as [x|z|s|c|e IH|op l r IHl IHr|e x IH|f args IHf IHargs]
    using expr_induction; simpl.
  - apply only_exceptions_load_name.
  - apply only_exceptions_ret.
  - apply only_exceptions_ret.
  - apply only_exceptions_ret.
  - apply only_exceptions_bind; [exact IH|]. intros v.
    destruct v; auto with only_exceptions.
  - apply only_exceptions_bind; [exact IHl|]. intros a.
    apply only_exceptions_bind; [exact IHr|]. intros c.
    apply only_exceptions_binary.
  - apply only_exceptions_bind; [exact IH|]. intros v.
    apply only_exceptions_getattr.
  - apply only_exceptions_bind; [exact IHf|]. intros vf.
    apply only_exceptions_bind; [|intros vs; apply only_exceptions_call].
    induction IHargs as [|a args Ha _ IHrest]; [apply only_exceptions_ret|].
    apply only_exceptions_bind; [exact Ha|]. intros v.
    apply only_exceptions_bind; [exact IHrest|]. intros vs.
    apply only_exceptions_ret.
Qed.

(** A statement with a head starts by evaluating it. *)
Lemma run_head
    (b : gmap string builtin) (n : nat) (s : stmt) (rest : list stmt)
    (g : gmap string value) (e : expr) :
  stmt_head s = Some e ->
  exists k : value -> M unit,
    forall q, run b (S n) (s :: rest) g q = bind (eval b g e) k q.
Proof.
  destruct s as [|m|e'|y e'|e'|c body]; intros [= <-]; eexists; intros q;
    reflexivity.
Qed.

(** The run of a source whose first statement starts with a name that
    nothing binds. *)
Lemma mini_exec_leading_unbound
    (steps : nat) (code : string) (s : stmt) (rest : list stmt) (e : expr)
    (x : string) (q : process) :
  allowlist !! x = None -> x <> "__builtins__" ->
  parse code = Some (s :: rest) -> stmt_head s = Some e ->
  leading_name e = Some x ->
  mini_exec (S steps) code exec_globals q
  = Some (Raised (Exc NameError ("name '" +:+ x +:+ "' is not defined")), q).
Proof.
  intros Hallow Hx Hparse Hhead Hlead. unfold mini_exec. rewrite Hparse.
  change (exec_globals !! "__builtins__") with (Some allowlist).
  cbv beta iota.
  destruct (run_head allowlist steps s rest (VDict <$> exec_globals) e Hhead)
    as [k Hrun].
  rewrite Hrun.
  by rewrite (bind_throw _ _ _ _ _
                (eval_leading_unbound _ _ e x q Hlead
                   (initial_globals_lookup x Hx) Hallow)).
Qed.

(** The run of a source whose first statement evaluates an expression
    that mentions a name nothing binds: if it comes back, it has raised
    an instance of [Exception]. *)
Lemma mini_exec_mentions_unbound
    (steps : nat) (code : string) (s : stmt) (rest : list stmt) (e : expr)
    (x : string) (q q' : process) (o : outcome) :
  allowlist !! x = None -> x <> "__builtins__" ->
  parse code = Some (s :: rest) -> stmt_head s = Some e ->
  x ∈ expr_names e ->
  mini_exec steps code exec_globals q = Some (o, q') ->
  exists err, o = Raised err /\ isinstance err Exception = true.
Proof.
  intros Hallow Hx Hparse Hhead Hin. unfold mini_exec. rewrite Hparse.
  change (exec_globals !! "__builtins__") with (Some allowlist).
  cbv beta iota. destruct steps as [|n]; [discriminate|].
  destruct (run_head allowlist n s rest (VDict <$> exec_globals) e Hhead)
    as [k Hrun].
  rewrite Hrun. unfold bind.
  destruct (eval allowlist (VDict <$> exec_globals) e q)
    as [[v|err| |] q1] eqn:Hev; try discriminate.
  - destruct (eval_ok_names_bound _ _ _ _ _ _ x Hev Hin) as [[w Hw]|[w Hw]].
    + by rewrite (initial_globals_lookup x Hx) in Hw.
    + by rewrite Hallow in Hw.
  - intros [= <- _]. exists err. split; [done|].
    exact (only_exceptions_eval _ _ _ _ _ _ Hev).
Qed.





(** Another fault can come before the name is reached: the failure text
    is then not the one naming it. *)
Example fault_before_the_name :
  parse "1/0 + open"
  = Some [SExpr (EBin Add (EBin Div (EInt 1) (EInt 0)) (EName "open"))]
  /\ fst <$> execute_code_safely (mini_exec 10) "1/0 + open" startup
     = Some (Returns "Error: division by zero").
Proof. split; vm_compute; reflexivity. Qed.

(** Scenarios C and E of the specification. *)
Example print_undefined_name :
  fst <$> execute_code_safely (mini_exec 10) "print(undefined_name)" startup
  = Some (Returns "Error: name 'undefined_name' is not defined").
Proof. vm_compute. reflexivity. Qed.

Example import_os :
  fst <$> execute_code_safely (mini_exec 10) "import os" startup
  = Some (Returns "Error: __import__ not found").
Proof. vm_compute. reflexivity. Qed.

(** ** Every run of the fragment is pure *)

Lemma uniform_ret {A} (a : A) : uniform (ret a).
Proof. by exists (Ok a), []. Qed.

Lemma uniform_throw {A} (e : exception) : uniform (@throw A e).
Proof. by exists (Throw e), []. Qed.

Lemma uniform_timeout {A} : uniform (@timeout A).
Proof. by exists Timeout, []. Qed.

Lemma uniform_unsupported {A} : uniform (@unsupported A).
Proof. by exists Unsupported, []. Qed.

Lemma uniform_stdout_write (text : string) : uniform (stdout_write text).
Proof. by exists (Ok tt), [text]. Qed.

Lemma uniform_bind {A B} (m : M A) (k : A -> M B) :
  uniform m -> (forall a, uniform (k a)) -> uniform (bind m k).
Proof.
  intros (r & texts & Hm) Hk. destruct r as [a|e| |].
  - destruct (Hk a) as (r' & texts' & Hka).
    exists r', (texts ++ texts')%list. intros p.
    unfold bind. by rewrite Hm, Hka, emit_app.
  - exists (Throw e), texts. intros p. unfold bind. by rewrite Hm.
  - exists Timeout, texts. intros p. unfold bind. by rewrite Hm.
  - exists Unsupported, texts. intros p. unfold bind. by rewrite Hm.
Qed.

Create HintDb uniform.

#[local] Hint Resolve uniform_ret uniform_throw uniform_timeout
  uniform_unsupported uniform_stdout_write : uniform.

Ltac uniform_cases :=
  repeat case_match; subst;
  try (apply uniform_bind; [|intros ?]);
  auto with uniform.

Lemma uniform_extremum (pick : Z -> Z -> Z) (args : list value) :
  uniform (extremum pick args).
Proof. unfold extremum. uniform_cases. Qed.

Lemma uniform_call_builtin (b : builtin) (args : list value) :
  uniform (call_builtin b args).
Proof.
  unfold call_builtin.
  destruct b; try apply uniform_extremum; uniform_cases.
Qed.

Lemma uniform_instantiate (c : exc_class) (args : list value) :
  uniform (instantiate c args).
Proof. unfold instantiate. uniform_cases. Qed.

Lemma uniform_call (f : value) (args : list value) : uniform (call f args).
Proof.
  unfold call.
  destruct f; auto using uniform_call_builtin, uniform_instantiate
    with uniform.
Qed.

Lemma uniform_getattr (v : value) (x : string) : uniform (getattr v x).
Proof. unfold getattr. uniform_cases. Qed.

Lemma uniform_binary (op : binop) (l r : value) : uniform (binary op l r).
Proof. unfold binary. uniform_cases. Qed.

Lemma uniform_load_name
    (b : gmap string builtin) (g : gmap string value) (x : string) :
  uniform (load_name b g x).
Proof. unfold load_name. uniform_cases. Qed.

Lemma uniform_raise_value (v : value) : uniform (raise_value v).
Proof. unfold raise_value. uniform_cases. Qed.

Lemma uniform_import_name (b : gmap string builtin) (m : string) :
  uniform (import_name b m).
Proof. unfold import_name. uniform_cases. Qed.

Lemma uniform_eval
    (b : gmap string builtin) (g : gmap string value) (e : expr) :
  uniform (eval b g e).
Proof.
  induction e as [x|z|s|c|e IH|op l r IHl IHr|e x IH|f args IHf IHargs]
    using expr_induction; simpl.
  - apply uniform_load_name.
  - apply uniform_ret.
  - apply uniform_ret.
  - apply uniform_ret.
  - apply uniform_bind; [exact IH|]. intros v. destruct v; auto with uniform.
  - apply uniform_bind; [exact IHl|]. intros a.
    apply uniform_bind; [exact IHr|]. intros c. apply uniform_binary.
  - apply uniform_bind; [exact IH|]. intros v. apply uniform_getattr.
  - apply uniform_bind; [exact IHf|]. intros vf.
    apply uniform_bind; [|intros vs; apply uniform_call].
    induction IHargs as [|a args Ha _ IHrest]; [apply uniform_ret|].
    apply uniform_bind; [exact Ha|]. intros v.
    apply uniform_bind; [exact IHrest|]. intros vs. apply uniform_ret.
Qed.

Lemma uniform_run
    (b : gmap string builtin) (n : nat) (ss : list stmt)
    (g : gmap string value) :
  uniform (run b n ss g).
Proof.
  revert ss g. induction n as [|n IH]; intros [|s rest] g; simpl;
    auto with uniform.
  destruct s as [|m|e|x e|e|c body].
  - apply IH.
  - apply uniform_bind; [apply uniform_import_name | intros _; apply IH].
  - apply uniform_bind; [apply uniform_eval|]. intros v.
    apply uniform_bind; [apply uniform_raise_value | intros _; apply IH].
  - apply uniform_bind; [apply uniform_eval | intros v; apply IH].
  - apply uniform_bind; [apply uniform_eval | intros _; apply IH].
  - apply uniform_bind; [apply uniform_eval|]. intros v.
    destruct (truth v); apply IH.
Qed.

(** Whenever the model gives a run of a source a result, the source is
    pure: the theorem on two calls in a row applies to it. *)
Lemma mini_exec_pure (steps : nat) (code : string) (p0 : process) :
  is_Some (mini_exec steps code exec_globals p0) ->
  pure_source (mini_exec steps) code.
Proof.
  unfold pure_source, mini_exec. intros [res Hres].
  destruct (parse code) as [prog|]; [|discriminate].
  destruct (exec_globals !! "__builtins__") as [b|]; [|discriminate].
  destruct (uniform_run b steps prog (VDict <$> exec_globals))
    as (r & texts & Hrun).
  rewrite Hrun in Hres.
  destruct r as [[]|e| |]; try discriminate.
  - exists Finished, texts. intros p. by rewrite Hrun.
  - exists (Raised e), texts. intros p. by rewrite Hrun.
Qed.

(** Two calls in a row on the fragment: if the first hands back a
    completion, the second hands back the same one. *)
Lemma mini_exec_same_result_twice
    (steps : nat) (code : string) (p p1 : process) (c : completion) :
  execute_code_safely (mini_exec steps) code p = Some (c, p1) ->
  exists p2, execute_code_safely (mini_exec steps) code p1 = Some (c, p2).
Proof.
  intros H.
  assert (pure_source (mini_exec steps) code) as (o & texts & Hpure).
  { apply (mini_exec_pure steps code (redirect p).2).
    rewrite execute_code_safely_eq in H.
    destruct (mini_exec steps code exec_globals (redirect p).2);
      [eauto | discriminate]. }
  rewrite (execute_pure _ code o texts Hpure) in H.
  rewrite (execute_pure _ code o texts Hpure).
  injection H as <- _. eauto.
Qed.

(** Two unrelated calls in a row: the second capture starts empty, and
    a variable the first source assigned is unknown to the second. *)
Example second_capture_has_no_leftover :
  exists p1 p2,
    execute_code_safely (mini_exec 10) "print('a')" startup
    = Some (Returns ("a" +:+ nl), p1)
    /\ execute_code_safely (mini_exec 10) "print('b')" p1
       = Some (Returns ("b" +:+ nl), p2)
    /\ sys_stdout p2 = sys_stdout startup.
Proof. eexists _, _. repeat split; reflexivity. Qed.

Example assigned_variable_does_not_survive :
  exists p1 p2,
    execute_code_safely (mini_exec 10) "x = 1" startup
    = Some (Returns "Code executed successfully (no output)", p1)
    /\ execute_code_safely (mini_exec 10) "print(x)" p1
       = Some (Returns "Error: name 'x' is not defined", p2).
Proof. eexists _, _. split; reflexivity. Qed.

(** ** A source that does not stop *)

Lemma while_true_steps
    (b : gmap string builtin) (n : nat) (g : gmap string value)
    (p : process) :
  run b n [SWhile (EConst CTrue) [SPass]] g p = (Timeout, p)
  /\ run b n [SPass; SWhile (EConst CTrue) [SPass]] g p = (Timeout, p).
Proof.
  induction n as [|n [IH1 IH2]]; [done|]. split.
  - exact IH2.
  - exact IH1.
Qed.

(** [while True: pass] gets no completion, however many steps are
    allowed: the call does not return. *)
Lemma while_true_never_returns (steps : nat) (p : process) :
  parse "while True: pass" = Some [SWhile (EConst CTrue) [SPass]]
  /\ execute_code_safely (mini_exec steps) "while True: pass" p = None.
Proof.
  split; [reflexivity|].
  rewrite execute_code_safely_eq. unfold mini_exec.
  change (parse "while True: pass")
    with (Some [SWhile (EConst CTrue) [SPass]]).
  change (exec_globals !! "__builtins__") with (Some allowlist).
  cbv beta iota.
  by rewrite (proj1 (while_true_steps allowlist steps _ _)).
Qed.

(** * The quick analysis *)

Import Ast Analysis Main Samples.

(** ** [ast.walk] *)

Lemma forest_size_app (xs ys : list node) :
  forest_size (xs ++ ys) = forest_size xs + forest_size ys.
Proof. unfold forest_size. by rewrite List.map_app, list_sum_app. Qed.

Lemma forest_size_cons (n : node) (rest : list node) :
  forest_size (n :: rest) = S (forest_size (rest ++ iter_child_nodes n)).
Proof.
  rewrite forest_size_app. destruct n as [c cs]. unfold forest_size. simpl.
  lia.
Qed.

Lemma forest_size_children (ts : list node) :
  forest_size ts
  = List.length ts + forest_size (List.flat_map iter_child_nodes ts).
Proof.
  induction ts as [|[c cs] ts IH]; [done|].
  change (List.flat_map iter_child_nodes (Node c cs :: ts))
    with (cs ++ List.flat_map iter_child_nodes ts)%list.
  rewrite forest_size_app. unfold forest_size in *. simpl. lia.
Qed.

(** One turn of the loop. *)
Lemma walk_queue_cons (n : node) (rest : list node) :
  walk_queue (forest_size (n :: rest)) (n :: rest)
  = n :: walk_queue (forest_size (rest ++ iter_child_nodes n))
           (rest ++ iter_child_nodes n).
Proof. by rewrite forest_size_cons. Qed.

(** The nodes in the queue come out in order, before any of their
    children. *)
Lemma walk_queue_app (xs ys : list node) :
  walk_queue (forest_size (xs ++ ys)) (xs ++ ys)
  = (xs ++ walk_queue
             (forest_size (ys ++ List.flat_map iter_child_nodes xs))
             (ys ++ List.flat_map iter_child_nodes xs))%list.
Proof.
  revert ys. induction xs as [|x xs IH]; intros ys.
  - simpl. by rewrite app_nil_r.
  - change ((x :: xs) ++ ys)%list with (x :: (xs ++ ys))%list.
    rewrite walk_queue_cons, <- (assoc_L (++)), IH.
    simpl. by rewrite <- (assoc_L (++)).
Qed.

Lemma walk_eq (tree : node) :
  walk tree = walk_queue (forest_size [tree]) [tree].
Proof. unfold walk, forest_size. simpl. by rewrite Nat.add_0_r. Qed.

(** The walk yields every node of the forest once. *)
Lemma walk_queue_permutation (n : nat) (todo : list node) :
  forest_size todo <= n ->
  walk_queue (forest_size todo) todo ≡ₚ List.flat_map preorder todo.
Proof.
  revert todo. induction n as [|n IH]; intros [|[c cs] rest] Hsize;
    try done.
  - rewrite forest_size_cons in Hsize. lia.
  - rewrite walk_queue_cons. rewrite forest_size_cons in Hsize.
    rewrite IH by lia. simpl.
    rewrite List.flat_map_app. constructor. apply Permutation_app_comm.
Qed.

Lemma walk_permutation (tree : node) : walk tree ≡ₚ preorder tree.
Proof.
  rewrite walk_eq, (walk_queue_permutation (forest_size [tree])) by done.
  simpl. by rewrite app_nil_r.
Qed.

Lemma flat_map_nested {A B C} (f : A -> list B) (g : B -> list C)
    (l : list A) :
  List.flat_map g (List.flat_map f l)
  = List.flat_map (fun x => List.flat_map g (f x)) l.
Proof.
  induction l as [|x l IH]; [done|]. simpl.
  by rewrite List.flat_map_app, IH.
Qed.

Lemma flat_map_nil {A B} (l : list A) :
  List.flat_map (fun _ => @nil B) l = [].
Proof. by induction l. Qed.

Lemma flat_map_singleton {A} (l : list A) :
  List.flat_map (fun x => [x]) l = l.
Proof. induction l as [|x l IH]; [done|]. simpl. by rewrite IH. Qed.

Lemma flat_map_map {A B C} (f : B -> list C) (g : A -> B) (l : list A) :
  List.flat_map f (List.map g l) = List.flat_map (fun x => f (g x)) l.
Proof. induction l as [|x l IH]; [done|]. simpl. by rewrite IH. Qed.

(** The walk is level by level: the queue, then the walk of the
    children of the queue. *)
Lemma walk_queue_levels (n : nat) (ts : list node) :
  forest_size ts <= n ->
  walk_queue (forest_size ts) ts
  = List.flat_map (fun d => List.flat_map (level d) ts) (seq 0 n).
Proof.
  revert ts. induction n as [|n IH]; intros ts Hsize.
  - destruct ts as [|t ts]; [done|]. rewrite forest_size_cons in Hsize. lia.
  - pose proof (walk_queue_app ts []) as Hwalk.
    rewrite app_nil_r in Hwalk. simpl in Hwalk. rewrite Hwalk.
    rewrite IH by (rewrite forest_size_children in Hsize;
                   destruct ts; unfold forest_size in *; simpl in *; lia).
    change (seq 0 (S n)) with (0 :: seq 1 n).
    rewrite <- seq_shift. simpl.
    rewrite flat_map_singleton, flat_map_map. f_equal.
    apply List.flat_map_ext. intros d. simpl.
    by rewrite flat_map_nested.
Qed.

Lemma walk_levels (tree : node) :
  walk tree = List.flat_map (fun d => level d tree) (seq 0 (Ast.size tree)).
Proof.
  rewrite walk_eq, (walk_queue_levels (Ast.size tree)).
  - apply List.flat_map_ext. intros d. simpl. by rewrite app_nil_r.
  - unfold forest_size. simpl. lia.
Qed.

(** ** [analyze_syntax] *)

Lemma collect_issues_from (acc : list string) (nodes : list node) :
  foldl (fun issues n =>
           match basic_issue n with
           | Some text => issues ++ [text]
           | None => issues
           end)%list acc nodes
  = (acc ++ omap basic_issue nodes)%list.
Proof.
  revert acc. induction nodes as [|n nodes IH]; intros acc; simpl.
  - by rewrite app_nil_r.
  - rewrite IH. destruct (basic_issue n); [|done].
    by rewrite <- (assoc_L (++)).
Qed.

(** The loop appends the text of every flagged node, in the order of the
    walk. *)
Lemma collect_issues_omap (nodes : list node) :
  collect_issues nodes = omap basic_issue nodes.
Proof. unfold collect_issues. by rewrite collect_issues_from. Qed.

Lemma omap_flat_map {A B C} (f : B -> option C) (g : A -> list B)
    (l : list A) :
  omap f (List.flat_map g l) = List.flat_map (fun x => omap f (g x)) l.
Proof.
  induction l as [|x l IH]; [done|]. simpl. by rewrite omap_app, IH.
Qed.

Lemma filter_length_permutation {A} (f : A -> bool) (l l' : list A) :
  l ≡ₚ l' ->
  List.length (List.filter f l) = List.length (List.filter f l').
Proof.
  induction 1 as [|x l l' _ IH|x y l|l l' l'' _ IH _ IH']; simpl.
  - done.
  - destruct (f x); simpl; by rewrite IH.
  - by destruct (f x), (f y).
  - by rewrite IH.
Qed.

Section AnalyzeProperties.

Variable ast_parse : parse_behaviour.

(** The dictionary built for a tree. *)
Lemma analyze_syntax_tree (code : string) (tree : node) :
  ast_parse code = Some (Tree tree) ->
  analyze_syntax ast_parse code
  = Some (Dict (list_to_map
        [ ("syntax_valid", FBool true);
          ("functions",
            FInt (List.length (List.filter is_FunctionDef (walk tree))));
          ("classes",
            FInt (List.length (List.filter is_ClassDef (walk tree))));
          ("basic_issues", FList (omap basic_issue (walk tree))) ])).
Proof.
  intros H. unfold analyze_syntax. by rewrite H, collect_issues_omap.
Qed.

(** X5: the two counts are those of the whole tree: every [FunctionDef]
    node and every [ClassDef] node is counted once, however deep it is
    nested, and nodes of other classes, [AsyncFunctionDef] among them,
    are not. *)
Theorem counts_cover_whole_tree (code : string) (tree : node) :
  ast_parse code = Some (Tree tree) ->
  exists d,
    analyze_syntax ast_parse code = Some (Dict d)
    /\ (d !! "functions")
       = Some (FInt (List.length (List.filter is_FunctionDef (preorder tree))))
    /\ (d !! "classes")
       = Some (FInt (List.length (List.filter is_ClassDef (preorder tree)))).
Proof.
  intros H. eexists. split; [apply (analyze_syntax_tree code tree H)|].
  rewrite <- !(filter_length_permutation _ _ _ (walk_permutation tree)).
  split; reflexivity.
Qed.

(** X6: the issues hold one text for each [Name] node of the tree whose
    identifier is in the list of line 69, and nothing else. *)
Theorem one_issue_per_flagged_name (code : string) (tree : node) :
  ast_parse code = Some (Tree tree) ->
  exists d issues,
    analyze_syntax ast_parse code = Some (Dict d)
    /\ (d !! "basic_issues") = Some (FList issues)
    /\ issues ≡ₚ omap basic_issue (preorder tree).
Proof.
  intros H. eexists _, _. split; [apply (analyze_syntax_tree code tree H)|].
  split; [reflexivity|]. by rewrite (walk_permutation tree).
Qed.

(** X7: the issues come in the order of the walk, which is by depth:
    first those of the names at depth 0, then depth 1, and so on, from
    left to right at each depth.  The order of the lines plays no part. *)
Theorem issues_listed_by_depth (code : string) (tree : node) :
  ast_parse code = Some (Tree tree) ->
  exists d,
    analyze_syntax ast_parse code = Some (Dict d)
    /\ (d !! "basic_issues")
       = Some (FList (List.flat_map
                        (fun depth => omap basic_issue (level depth tree))
                        (seq 0 (Ast.size tree)))).
Proof.
  intros H. eexists. split; [apply (analyze_syntax_tree code tree H)|].
  rewrite <- omap_flat_map, <- walk_levels. reflexivity.
Qed.

End AnalyzeProperties.

(** X5 on the source with a function, a class and a method: two
    functions, one class. *)
Lemma counts_of_totals_source :
  exists d,
    analyze_syntax sample_parse totals_source = Some (Dict d)
    /\ (d !! "functions") = Some (FInt 2)
    /\ (d !! "classes") = Some (FInt 1).
Proof.
  apply (counts_cover_whole_tree sample_parse totals_source totals_tree).
  vm_compute. reflexivity.
Defined.

(** X6 on the same source: the two uses on line 2 are flagged, the
    parameter called [list] on line 1 is not. *)
Lemma issues_of_totals_source :
  exists d issues,
    analyze_syntax sample_parse totals_source = Some (Dict d)
    /\ (d !! "basic_issues") = Some (FList issues)
    /\ issues ≡ₚ [ "Line 2: Variable 'sum' shadows built-in";
                   "Line 2: Variable 'list' shadows built-in" ].
Proof.
  apply (one_issue_per_flagged_name sample_parse totals_source totals_tree).
  vm_compute. reflexivity.
Defined.

(** X7 on [x = len(sum)] followed by [list]: the issue of line 2 comes
    before the issue of line 1. *)
Lemma issues_of_order_source :
  exists d,
    analyze_syntax sample_parse order_source = Some (Dict d)
    /\ (d !! "basic_issues")
       = Some (FList [ "Line 2: Variable 'list' shadows built-in";
                       "Line 1: Variable 'sum' shadows built-in" ]).
Proof.
  apply (issues_listed_by_depth sample_parse order_source order_tree).
  vm_compute. reflexivity.
Defined.

(** ** The quick analysis panel *)

Lemma for_each_text (items : list string) :
  for_each items (fun issue => emit_element (st_text issue))
  = Some (List.map st_text items, inr tt).
Proof.
  induction items as [|i items IH]; [done|]. simpl. by rewrite IH.
Qed.

Section PanelProperties.

Variable ast_parse : parse_behaviour.

(** What the panel shows for a source that parses. *)
Lemma quick_analysis_tree (code : string) (tree : node) :
  truthy code = true ->
  ast_parse code = Some (Tree tree) ->
  quick_analysis ast_parse code
  = Some ([ st_success "✅ Syntax is valid";
            st_info ("Functions: "
                     +:+ int_str (Z.of_nat (List.length
                           (List.filter is_FunctionDef (walk tree))))
                     +:+ " | Classes: "
                     +:+ int_str (Z.of_nat (List.length
                           (List.filter is_ClassDef (walk tree))))) ]
          ++ match omap basic_issue (walk tree) with
             | [] => []
             | items => st_warning "⚠️ Basic issues detected"
                        :: List.map st_text items
             end, inr tt)%list.
Proof.
  intros Hcode H. unfold quick_analysis, call_analyze_syntax.
  rewrite Hcode, (analyze_syntax_tree _ _ _ H).
  generalize (List.length (List.filter is_FunctionDef (walk tree))).
  generalize (List.length (List.filter is_ClassDef (walk tree))).
  generalize (omap basic_issue (walk tree)).
  intros [|i items] c f.
  - reflexivity.
  - unfold subscript.
    repeat (progress simpl
            || rewrite lookup_insert_eq
            || (rewrite lookup_insert_ne by done)).
    rewrite for_each_text. reflexivity.
Qed.

(** What the panel does when [ast.parse] raises. *)
Lemma quick_analysis_fault (code : string) (e : exception)
    (lineno : option nat) :
  truthy code = true ->
  ast_parse code = Some (Fault e lineno) ->
  quick_analysis ast_parse code
  = if isinstance e SyntaxError
    then Some ([st_error ("❌ Syntax Error: " +:+ str e)], inr tt)
    else Some ([], inl (Raises e)).
Proof.
  intros Hcode H. unfold quick_analysis, call_analyze_syntax, analyze_syntax.
  rewrite Hcode, H. by destruct (isinstance e SyntaxError).
Qed.

(** X8: the panel never stops on a missing key, in either branch: each
    key it reads is one [analyze_syntax] stored.  It has an answer
    whenever [ast.parse] has one, and the only fault that leaves it is an
    exception of [ast.parse] that is not a [SyntaxError], before any
    element is shown. *)
Theorem quick_analysis_finds_every_key (code : string) :
  match quick_analysis ast_parse code with
  | None => ast_parse code = None
  | Some (_, inr _) => True
  | Some (_, inl (KeyError _)) => False
  | Some (out, inl (Raises e)) =>
      out = []
      /\ exists lineno,
           ast_parse code = Some (Fault e lineno)
           /\ isinstance e SyntaxError = false
  end.
Proof.
  destruct (truthy code) eqn:Hcode.
  - destruct (ast_parse code) as [[tree|e lineno]|] eqn:H.
    + by rewrite (quick_analysis_tree code tree Hcode H).
    + rewrite (quick_analysis_fault code e lineno Hcode H).
      destruct (isinstance e SyntaxError) eqn:He; [done|]. eauto.
    + unfold quick_analysis, call_analyze_syntax, analyze_syntax.
      by rewrite Hcode, H.
  - unfold quick_analysis. by rewrite Hcode.
Qed.

End PanelProperties.

(** ** More on [execute_code_safely] *)

Section RelayProperties.

Variable exec : exec_behaviour.




End RelayProperties.



(** Without the condition of X1 the text can be empty: a source that
    puts its own [getvalue] on the capture buffer makes line 202 return
    an empty string. *)
Example shadowed_getvalue_returns_empty_text :
  execute_code_safely sample_exec shadows_getvalue startup
  = Some (Returns "", set_sys_stdout 0 (redirect startup).2).
Proof. vm_compute. reflexivity. Qed.




